(** * Verification of the setStream migration scripts

    The repository holds three one-shot Python scripts that rewrite Java
    test sources from the deprecated [engine.setStream(...)] call to the
    [StreamUpdateBuilder] form:

    - [fix_test_migration.py]       ([fix_test_file], [main]),
    - [fix_remaining_setstream.py]  ([fix_single_thread_engine_test],
                                      [fix_floor_operation_test]),
    - [fix_set_executor_test.py]    ([fix_set_executor_test]).

    The scripts are text transformations built from [str.replace],
    [in], [re.search] and [re.sub] with a callback that increments a
    [nonlocal] counter.  They are embedded below as executable functions
    on lists of characters; the file system is a finite map from paths to
    file texts and the console is the list of printed lines. *)

From Stdlib Require Import Ascii String List Arith Lia.
From Stdlib Require Import Decimal DecimalNat DecimalString.
From stdpp Require Import gmap strings list.

Open Scope list_scope.

(** ** Text *)

(** A Python [str] is modelled as the list of its characters; a character
    is a code point below 256. *)
Definition text := list ascii.

(** The text of a string literal. *)
Definition str (s : string) : text := String.list_ascii_of_string s.

(** The line feed and the double quote. *)
Definition newline : ascii := "010"%char.
Definition dquote : ascii := "034"%char.

Definition nl : text := [newline].
Definition dq : text := [dquote].

(** [s.startswith(p)] *)
Fixpoint starts_with (p s : text) : bool :=
  match p, s with
  | [], _ => true
  | a :: p', b :: s' => if Ascii.eqb a b then starts_with p' s' else false
  | _ :: _, [] => false
  end.

(** [p in s] *)
Fixpoint contains (p s : text) : bool :=
  starts_with p s ||
  match s with
  | [] => false
  | _ :: s' => contains p s'
  end.

(** [s.replace(old, new)] for a non-empty [old]: scan from the left; at
    an occurrence of [old] emit [new] and pass over the occurrence,
    otherwise copy one character.  [skip] counts the characters of the
    last occurrence that are still to be passed over. *)
Fixpoint replace_from (old new s : text) (skip : nat) : text :=
  match s with
  | [] => []
  | c :: s' =>
      match skip with
      | S k => replace_from old new s' k
      | O =>
          if starts_with old s
          then new ++ replace_from old new s' (length old - 1)
          else c :: replace_from old new s' 0
      end
  end.

(** [s.replace(old, new)]; with an empty [old] Python puts [new] before
    every character and at the end. *)
Definition str_replace (old new s : text) : text :=
  match old with
  | [] => new ++ flat_map (fun c => c :: new) s
  | _ :: _ => replace_from old new s 0
  end.

(** A text no proper end of which is also its beginning: two occurrences
    of it cannot overlap. *)
Definition borderless (p : text) : bool :=
  forallb (fun d => negb (starts_with (drop d p) p)) (seq 1 (length p - 1)).

(** [clash p t]: at some place that both texts have, [p] and [t] differ;
    whatever follows [t], the result does not begin with [p]. *)
Fixpoint clash (p t : text) : bool :=
  match p, t with
  | a :: p', b :: t' => negb (Ascii.eqb a b) || clash p' t'
  | _, _ => false
  end.

(** [p] clashes with [t] at every place of [t]. *)
Fixpoint clash_everywhere (p t : text) : bool :=
  match t with
  | [] => true
  | _ :: t' => clash p t && clash_everywhere p t'
  end.

(** Every end of [p] clashes with [t]. *)
Definition ends_clash (p t : text) : bool :=
  forallb (fun d => clash (drop d p) t) (seq 0 (length p)).

(** [s.split('\n')] *)
Fixpoint split_lines (s : text) : list text :=
  match s with
  | [] => [[]]
  | c :: s' =>
      if Ascii.eqb c newline then [] :: split_lines s'
      else match split_lines s' with
           | [] => [[c]]
           | l :: ls => (c :: l) :: ls
           end
  end.

(** ['\n'.join(ls)] *)
Fixpoint join_lines (ls : list text) : text :=
  match ls with
  | [] => []
  | [l] => l
  | l :: ls' => l ++ nl ++ join_lines ls'
  end.

(** [f"{n}"] for a non-negative [int]: its decimal digits. *)
Definition decimal (n : nat) : string := NilEmpty.string_of_uint (Nat.to_uint n).

Definition fmt_int (n : nat) : text := str (decimal n).

(** ** Regular expressions

    Every pattern of the three scripts is a sequence of literal
    characters and greedy repetitions of a character class ([\s*], [\s+],
    and negated one-character classes), some of them inside a capturing group;
    groups are never nested.  The matcher is the backtracking matcher of
    Python's [re]: a greedy repetition first takes as many characters as
    it can and gives them back one at a time while the rest of the
    pattern fails. *)

Inductive atom :=
| Chr (c : ascii)
| Rep (cls : ascii -> bool) (min : nat).

Inductive item :=
| Plain (a : atom)
| Group (g : list atom).

Definition regex := list item.

(** The pattern of a literal text. *)
Definition lit (s : string) : regex := map (fun c => Plain (Chr c)) (str s).

(** [\s] on [str] patterns: the characters for which [str.isspace] holds. *)
Definition is_space (c : ascii) : bool :=
  let n := nat_of_ascii c in
  (9 <=? n) && (n <=? 13) || (28 <=? n) && (n <=? 32) || (n =? 133) || (n =? 160).

(** [[^x]] *)
Definition not_chr (x : ascii) (c : ascii) : bool := negb (Ascii.eqb c x).

(** [\s*], [\s+], a literal line feed and a literal double quote. *)
Definition ws_star : item := Plain (Rep is_space 0).
Definition ws_plus : item := Plain (Rep is_space 1).
Definition lf : item := Plain (Chr newline).
Definition quo : item := Plain (Chr dquote).

(** A match object: the captured groups, [group(1)] first, and the
    length of the matched text. *)
Record rmatch := { groups : list text; mlen : nat }.

(** [m.group(i)] for [i >= 1]. *)
Definition group (m : rmatch) (i : nat) : text := nth (i - 1) (groups m) [].

Section Matcher.
Context {R : Type}.

Fixpoint rep (cls : ascii -> bool) (min : nat) (s : text)
    (k : text -> option R) : option R :=
  match s with
  | c :: s' =>
      if cls c then
        match rep cls (pred min) s' k with
        | Some r => Some r
        | None => match min with O => k s | S _ => None end
        end
      else match min with O => k s | S _ => None end
  | [] => match min with O => k s | S _ => None end
  end.

Fixpoint match_atoms (l : list atom) (s : text)
    (k : text -> option R) : option R :=
  match l with
  | [] => k s
  | Chr c :: l' =>
      match s with
      | c' :: s' => if Ascii.eqb c c' then match_atoms l' s' k else None
      | [] => None
      end
  | Rep cls min :: l' => rep cls min s (fun s' => match_atoms l' s' k)
  end.

Fixpoint match_items (p : regex) (s : text) (caps : list text)
    (k : text -> list text -> option R) : option R :=
  match p with
  | [] => k s caps
  | Plain a :: p' =>
      match_atoms [a] s (fun s' => match_items p' s' caps k)
  | Group g :: p' =>
      match_atoms g s (fun s' =>
        match_items p' s' (caps ++ [take (length s - length s') s]) k)
  end.
End Matcher.

(** [re.match(p, s)]: a match that starts at the first character of [s]. *)
Definition re_match (p : regex) (s : text) : option rmatch :=
  match_items p s []
    (fun s' caps => Some {| groups := caps; mlen := length s - length s' |}).

(** [re.search(p, s)]: the leftmost match. *)
Fixpoint re_search (p : regex) (s : text) : option rmatch :=
  match re_match p s with
  | Some m => Some m
  | None =>
      match s with
      | [] => None
      | _ :: s' => re_search p s'
      end
  end.

(** [re.sub] goes through the text once: the non-overlapping matches are
    found from left to right on the text as it was given, the callback is
    called once for each in that order, and the characters between
    matches are copied. *)
Inductive piece :=
| Keep (c : ascii)
| Hit (m : rmatch).

Fixpoint scan (p : regex) (s : text) (skip : nat) : list piece :=
  match s with
  | [] =>
      match skip, re_match p [] with
      | O, Some m => [Hit m]
      | _, _ => []
      end
  | c :: s' =>
      match skip with
      | S k => scan p s' k
      | O =>
          match re_match p s with
          | Some m =>
              match mlen m with
              | O => Hit m :: Keep c :: scan p s' 0
              | S k => Hit m :: scan p s' k
              end
          | None => Keep c :: scan p s' 0
          end
      end
  end.

Section Render.
Context {St : Type}.
Variable repl : rmatch -> St -> text * St.

Fixpoint render (ps : list piece) (st : St) : text * St :=
  match ps with
  | [] => ([], st)
  | Keep c :: ps' =>
      let '(out, st') := render ps' st in (c :: out, st')
  | Hit m :: ps' =>
      let '(r, st1) := repl m st in
      let '(out, st2) := render ps' st1 in
      (r ++ out, st2)
  end.

(** The calls of the callback, in order: the match it was given and the
    state it found. *)
Fixpoint calls (ps : list piece) (st : St) : list (rmatch * St) :=
  match ps with
  | [] => []
  | Keep _ :: ps' => calls ps' st
  | Hit m :: ps' => (m, st) :: calls ps' (snd (repl m st))
  end.
End Render.

(** [re.sub(p, repl, s)] with a callback that reads and updates [st]. *)
Definition re_sub {St} (p : regex) (repl : rmatch -> St -> text * St)
    (s : text) (st : St) : text * St :=
  render repl (scan p s 0) st.

(** A list of pieces with the texts that stand for its matches. *)
Fixpoint fill (ps : list piece) (rs : list text) : text :=
  match ps, rs with
  | [], _ => []
  | Keep c :: ps', _ => c :: fill ps' rs
  | Hit _ :: ps', r :: rs' => r ++ fill ps' rs'
  | Hit _ :: _, [] => []
  end.

(** The text by which a call site is recognised. *)
Definition call_head : text := str "engine.setStream(".

(** [confined run ps]: in the text whose matches are [ps], the call head
    occurs neither in a stretch of text outside the matches ([run] is the
    stretch read so far) nor in a captured group. *)
Fixpoint confined (run : text) (ps : list piece) : bool :=
  match ps with
  | [] => negb (contains call_head run)
  | Keep c :: ps' => confined (run ++ [c]) ps'
  | Hit m :: ps' =>
      negb (contains call_head run) &&
      forallb (fun g => negb (contains call_head g)) (groups m) &&
      confined [] ps'
  end.

(** *** What a pattern denotes

    [atom_lang a w]: the text [w] is matched by the atom [a];
    [matches p w gs]: the pattern [p] matches the whole text [w] and
    captures the groups [gs].  The matcher above is shown to return only
    such matches. *)

Inductive atom_lang : atom -> text -> Prop :=
| lang_chr c : atom_lang (Chr c) [c]
| lang_rep cls min w :
    Forall (fun c => cls c = true) w -> min <= length w ->
    atom_lang (Rep cls min) w.

Inductive atoms_lang : list atom -> text -> Prop :=
| lang_nil : atoms_lang [] []
| lang_cons a l w1 w2 :
    atom_lang a w1 -> atoms_lang l w2 -> atoms_lang (a :: l) (w1 ++ w2).

Inductive matches : regex -> text -> list text -> Prop :=
| matches_nil : matches [] [] []
| matches_plain a p w1 w2 gs :
    atom_lang a w1 -> matches p w2 gs ->
    matches (Plain a :: p) (w1 ++ w2) gs
| matches_group g p w1 w2 gs :
    atoms_lang g w1 -> matches p w2 gs ->
    matches (Group g :: p) (w1 ++ w2) (w1 :: gs).

(** A text made of white space only. *)
Definition blank (w : text) : Prop := Forall (fun c => is_space c = true) w.

(** A text that begins with a character other than white space. *)
Definition solid_start (w : text) : Prop :=
  exists c w', w = c :: w' /\ is_space c = false.

(** A text in which the character [x] does not occur. *)
Definition free_of (x : ascii) (w : text) : Prop :=
  Forall (fun c => not_chr x c = true) w.

(** ** Files and console

    A script runs against the file system and the console.  [files] maps
    a path to the text [f.read()] returns for it; the console is the list
    of the lines printed so far.  A run that raises (opening a missing
    file for reading) is [None]: nothing catches exceptions in these
    scripts. *)

Record world := World { files : gmap string text; console : list string }.

Definition io (A : Type) : Type := world -> option (A * world).

Definition ret {A} (a : A) : io A := fun w => Some (a, w).

Definition bind {A B} (m : io A) (k : A -> io B) : io B :=
  fun w =>
    match m w with
    | Some (a, w') => k a w'
    | None => None
    end.

Notation "'do' x <- m ; k" := (bind m (fun x => k))
  (at level 10, x name, m at level 100, k at level 200).
Notation "m ;; k" := (bind m (fun _ => k))
  (at level 100, k at level 200, right associativity).

(** [with open(path, 'r') as f: f.read()] *)
Definition read_file (path : string) : io text :=
  fun w =>
    match files w !! path with
    | Some content => Some (content, w)
    | None => None
    end.

(** [with open(path, 'w') as f: f.write(content)] *)
Definition write_file (path : string) (content : text) : io unit :=
  fun w => Some (tt, World (<[path := content]> (files w)) (console w)).

(** [print(line)] *)
Definition print (line : string) : io unit :=
  fun w => Some (tt, World (files w) (console w ++ [line])).

(** [os.path.exists(path)] *)
Definition path_exists (path : string) : io bool :=
  fun w => Some (bool_decide (is_Some (files w !! path)), w).

(** Equality of texts, for [content != original_content]. *)
Definition text_eqb (a b : text) : bool := bool_decide (a = b).

(** ** fix_test_migration.py *)

Module FixTestMigration.

Definition marker : text := str "StreamUpdate".

Definition anchor : text := str "import org.kigalisim.engine.state.YearMatcher;".

Definition import_pattern : regex :=
  [Group (map Chr anchor)].

(** The match object [re.search] returns where the anchor text is found:
    the pattern is that text in one group. *)
Definition anchor_match : rmatch :=
  {| groups := [anchor]; mlen := length anchor |}.

Definition added_imports : text :=
  nl ++ str "import org.kigalisim.engine.support.StreamUpdate;" ++
  nl ++ str "import org.kigalisim.engine.support.StreamUpdateBuilder;".

(** "Add imports if not already present" *)
Definition add_imports (content : text) : text :=
  if negb (contains marker content) then
    match re_search import_pattern content with
    | Some import_section =>
        let new_imports := group import_section 1 ++ added_imports in
        str_replace (group import_section 1) new_imports content
    | None => content
    end
  else content.

Definition setstream_pattern : regex :=
  lit "engine.setStream(" ++
  [Group [Rep (not_chr ",") 1]; Plain (Chr ","); ws_star;
   Group [Rep (not_chr ",") 1]; Plain (Chr ","); ws_star;
   Group [Rep (not_chr ")") 1]] ++
  lit ");".

(** The identifier [update{counter}]. *)
Definition identifier (counter : nat) : text := str "update" ++ fmt_int counter.

Definition replacement (counter : nat) (name value year_matcher : text) : text :=
  str "StreamUpdate update" ++ fmt_int counter ++ str " = new StreamUpdateBuilder()" ++ nl ++
  str "        .setName(" ++ name ++ str ")" ++ nl ++
  str "        .setValue(" ++ value ++ str ")" ++ nl ++
  str "        .setYearMatcher(" ++ year_matcher ++ str ")" ++ nl ++
  str "        .inferSubtractRecycling()" ++ nl ++
  str "        .build();" ++ nl ++
  str "    engine.executeStreamUpdate(update" ++ fmt_int counter ++ str ");".

(** The callback; [counter] is its [nonlocal] variable. *)
Definition replace_setstream (m : rmatch) (counter : nat) : text * nat :=
  let name := group m 1 in
  let value := group m 2 in
  let year_matcher := group m 3 in
  (replacement counter name value year_matcher, counter + 1).

(** The text [fix_test_file] computes from the text it read. *)
Definition migrate (original_content : text) : text :=
  let content := add_imports original_content in
  let counter := 1 in
  fst (re_sub setstream_pattern replace_setstream content counter).

(** The identifiers given out during one run of [fix_test_file], in
    order: one for each call of [replace_setstream]. *)
Definition generated_identifiers (original_content : text) : list text :=
  map (fun call => identifier (snd call))
    (calls replace_setstream
       (scan setstream_pattern (add_imports original_content) 0) 1).

Definition fix_test_file (file_path : string) : io bool :=
  do content <- read_file file_path;
  let original_content := content in
  let content := migrate original_content in
  if negb (text_eqb content original_content) then
    write_file file_path content;;
    print ("Fixed " +:+ file_path);;
    ret true
  else
    print ("No changes needed for " +:+ file_path);;
    ret false.

Definition test_files : list string :=
  ["/home/ubuntu/kigali-sim/engine/src/test/java/org/kigalisim/lang/operation/ChangeOperationTest.java";
   "/home/ubuntu/kigali-sim/engine/src/test/java/org/kigalisim/lang/operation/FloorOperationTest.java";
   "/home/ubuntu/kigali-sim/engine/src/test/java/org/kigalisim/lang/operation/GetStreamOperationTest.java";
   "/home/ubuntu/kigali-sim/engine/src/test/java/org/kigalisim/lang/operation/RechargeOperationTest.java";
   "/home/ubuntu/kigali-sim/engine/src/test/java/org/kigalisim/lang/operation/ReplaceOperationTest.java";
   "/home/ubuntu/kigali-sim/engine/src/test/java/org/kigalisim/lang/operation/RetireOperationTest.java";
   "/home/ubuntu/kigali-sim/engine/src/test/java/org/kigalisim/engine/SingleThreadEngineTest.java";
   "/home/ubuntu/kigali-sim/engine/src/test/java/org/kigalisim/engine/recalc/RecalcOperationBuilderIntegrationTest.java";
   "/home/ubuntu/kigali-sim/engine/src/test/java/org/kigalisim/engine/support/ChangeExecutorTest.java"]%string.

(** The [for file_path in test_files] loop of [main]. *)
Fixpoint for_each (paths : list string) (total_fixed : nat) : io nat :=
  match paths with
  | [] => ret total_fixed
  | file_path :: rest =>
      do found <- path_exists file_path;
      if (found : bool) then
        do fixed <- fix_test_file file_path;
        if (fixed : bool) then for_each rest (total_fixed + 1)
        else for_each rest total_fixed
      else
        print ("File not found: " +:+ file_path);;
        for_each rest total_fixed
  end.

Definition main : io unit :=
  do total_fixed <- for_each test_files 0;
  print (String newline "Total files fixed: " +:+ decimal total_fixed).

End FixTestMigration.

(** ** fix_remaining_setstream.py *)

Module FixRemaining.

Definition single_thread_engine_test_path : string :=
  "/home/ubuntu/kigali-sim/engine/src/test/java/org/kigalisim/engine/SingleThreadEngineTest.java".

Definition pattern : regex :=
  [Group [Rep is_space 1]] ++
  lit "engine.setStream(" ++
  [quo; Group [Rep (not_chr dquote) 1]; quo; Plain (Chr ","); ws_star;
   Group [Rep (not_chr ",") 1]; Plain (Chr ","); ws_star;
   Group [Rep (not_chr ")") 1]] ++
  lit ");".

Definition multiline_pattern : regex :=
  [Group [Rep is_space 1]] ++
  lit "engine.setStream(" ++
  [quo; Group [Rep (not_chr dquote) 1]; quo; Plain (Chr ","); ws_star;
   Group [Rep (not_chr ",") 1]; Plain (Chr ","); ws_star; lf; ws_star;
   Group [Rep (not_chr ")") 1]] ++
  lit ");".

(** The identifier [update{counter}]. *)
Definition identifier (counter : nat) : text := str "update" ++ fmt_int counter.

(** The f-string of [replace_setstream]; [replace_multiline_setstream]
    has the same one. *)
Definition replacement (indent : text) (counter : nat)
    (name value year_matcher : text) : text :=
  indent ++ str "StreamUpdate update" ++ fmt_int counter ++ str " = new StreamUpdateBuilder()" ++ nl ++
  indent ++ str "    .setName(" ++ dq ++ name ++ dq ++ str ")" ++ nl ++
  indent ++ str "    .setValue(" ++ value ++ str ")" ++ nl ++
  indent ++ str "    .setYearMatcher(" ++ year_matcher ++ str ")" ++ nl ++
  indent ++ str "    .inferSubtractRecycling()" ++ nl ++
  indent ++ str "    .build();" ++ nl ++
  indent ++ str "engine.executeStreamUpdate(update" ++ fmt_int counter ++ str ");".

Definition replace_setstream (m : rmatch) (counter : nat) : text * nat :=
  let indent := group m 1 in
  let name := group m 2 in
  let value := group m 3 in
  let year_matcher := group m 4 in
  (replacement indent counter name value year_matcher, counter + 1).

Definition replace_multiline_setstream (m : rmatch) (counter : nat) : text * nat :=
  let indent := group m 1 in
  let name := group m 2 in
  let value := group m 3 in
  let year_matcher := group m 4 in
  (replacement indent counter name value year_matcher, counter + 1).

(** The text [fix_single_thread_engine_test] computes from the text it
    read, with the final value of [counter]. *)
Definition migrate_counting (original_content : text) : text * nat :=
  let counter := 10 in
  let '(content, counter) :=
    re_sub pattern replace_setstream original_content counter in
  re_sub multiline_pattern replace_multiline_setstream content counter.

Definition migrate (original_content : text) : text :=
  fst (migrate_counting original_content).

(** The identifiers given out during one run of
    [fix_single_thread_engine_test], in order: those of the first
    [re.sub], then those of the second. *)
Definition generated_identifiers (original_content : text) : list text :=
  let first_pass := scan pattern original_content 0 in
  let '(content, counter) := render replace_setstream first_pass 10 in
  map (fun call => identifier (snd call))
    (calls replace_setstream first_pass 10) ++
  map (fun call => identifier (snd call))
    (calls replace_multiline_setstream (scan multiline_pattern content 0) counter).

Definition fix_single_thread_engine_test : io unit :=
  let file_path := single_thread_engine_test_path in
  do content <- read_file file_path;
  let original_content := content in
  let content := migrate original_content in
  if negb (text_eqb content original_content) then
    write_file file_path content;;
    print ("Fixed " +:+ file_path)
  else
    print ("No changes needed for " +:+ file_path).

Definition floor_operation_test_path : string :=
  "/home/ubuntu/kigali-sim/engine/src/test/java/org/kigalisim/lang/operation/FloorOperationTest.java".

Definition old_call : text :=
  str "    engine.setStream(" ++ dq ++ str "import" ++ dq ++
  str ", new EngineNumber(BigDecimal.valueOf(50), " ++ dq ++ str "kg" ++ dq ++
  str "), Optional.empty());".

Definition new_call : text :=
  str "    StreamUpdate importUpdate = new StreamUpdateBuilder()" ++ nl ++
  str "        .setName(" ++ dq ++ str "import" ++ dq ++ str ")" ++ nl ++
  str "        .setValue(new EngineNumber(BigDecimal.valueOf(50), " ++ dq ++ str "kg" ++ dq ++ str "))" ++ nl ++
  str "        .setYearMatcher(Optional.empty())" ++ nl ++
  str "        .inferSubtractRecycling()" ++ nl ++
  str "        .build();" ++ nl ++
  str "    engine.executeStreamUpdate(importUpdate);".

Definition migrate_floor (original_content : text) : text :=
  str_replace old_call new_call original_content.

Definition fix_floor_operation_test : io unit :=
  let file_path := floor_operation_test_path in
  do content <- read_file file_path;
  let original_content := content in
  let content := migrate_floor original_content in
  if negb (text_eqb content original_content) then
    write_file file_path content;;
    print ("Fixed " +:+ file_path)
  else
    print ("No changes needed for " +:+ file_path).

Definition main : io unit :=
  fix_single_thread_engine_test;;
  fix_floor_operation_test.

End FixRemaining.

(** ** fix_set_executor_test.py *)

Module FixSetExecutor.

Definition file_path : string :=
  "/home/ubuntu/kigali-sim/engine/src/test/java/org/kigalisim/engine/support/SetExecutorTest.java".

(** [\s*\n] and the character classes of the patterns. *)
Definition eol : regex := [ws_star; lf].
Definition not_comma : atom := Rep (not_chr ",") 1.
Definition not_rparen : atom := Rep (not_chr ")") 1.
Definition not_quote : atom := Rep (not_chr dquote) 1.

Definition old_pattern : regex :=
  [Group [Rep is_space 1]] ++ lit "// Assert" ++ eol ++
  [ws_plus] ++ lit "ArgumentCaptor<String> streamCaptor = ArgumentCaptor.forClass(String.class);" ++ eol ++
  [ws_plus] ++ lit "ArgumentCaptor<EngineNumber> valueCaptor = ArgumentCaptor.forClass(EngineNumber.class);" ++ eol ++
  eol ++
  [ws_plus] ++ lit "ArgumentCaptor<StreamUpdate> updateCaptor = ArgumentCaptor.forClass(StreamUpdate.class);" ++ eol ++
  [ws_plus] ++ lit "verify(mockEngine, times(2)).executeStreamUpdate(updateCaptor.capture());" ++ eol ++
  eol ++
  [ws_plus] ++ lit "// Check domestic call (" ++ [Plain not_rparen] ++ lit ")" ++ eol ++
  [ws_plus] ++ lit "assertEquals(" ++ [quo] ++ lit "domestic" ++ [quo] ++
    lit ", streamCaptor.getAllValues().get(0));" ++ eol ++
  [ws_plus] ++ lit "assertEquals(" ++ [Group [not_comma]] ++
    lit ", valueCaptor.getAllValues().get(0).getValue());" ++ eol ++
  [ws_plus] ++ lit "assertEquals(" ++ [quo; Group [not_quote]; quo] ++
    lit ", valueCaptor.getAllValues().get(0).getUnits());" ++ eol ++
  eol ++
  [ws_plus] ++ lit "// Check import call (" ++ [Plain not_rparen] ++ lit ")" ++ eol ++
  [ws_plus] ++ lit "assertEquals(" ++ [quo] ++ lit "import" ++ [quo] ++
    lit ", streamCaptor.getAllValues().get(1));" ++ eol ++
  [ws_plus] ++ lit "assertEquals(" ++ [Group [not_comma]] ++
    lit ", valueCaptor.getAllValues().get(1).getValue());" ++ eol ++
  [ws_plus] ++ lit "assertEquals(" ++ [quo; Group [not_quote]; quo] ++
    lit ", valueCaptor.getAllValues().get(1).getUnits());".

Definition replace_assert_block (m : rmatch) : text :=
  let indent := group m 1 in
  let domestic_value := group m 2 in
  let units1 := group m 3 in
  let import_value := group m 4 in
  let units2 := group m 5 in
  indent ++ str "// Assert" ++ nl ++
  indent ++ str "ArgumentCaptor<StreamUpdate> updateCaptor = ArgumentCaptor.forClass(StreamUpdate.class);" ++ nl ++
  indent ++ str "verify(mockEngine, times(2)).executeStreamUpdate(updateCaptor.capture());" ++ nl ++
  nl ++
  indent ++ str "List<StreamUpdate> capturedUpdates = updateCaptor.getAllValues();" ++ nl ++
  nl ++
  indent ++ str "// Check domestic call" ++ nl ++
  indent ++ str "assertEquals(" ++ dq ++ str "domestic" ++ dq ++ str ", capturedUpdates.get(0).getName());" ++ nl ++
  indent ++ str "assertEquals(" ++ domestic_value ++ str ", capturedUpdates.get(0).getValue().getValue());" ++ nl ++
  indent ++ str "assertEquals(" ++ dq ++ units1 ++ dq ++ str ", capturedUpdates.get(0).getValue().getUnits());" ++ nl ++
  nl ++
  indent ++ str "// Check import call" ++ nl ++
  indent ++ str "assertEquals(" ++ dq ++ str "import" ++ dq ++ str ", capturedUpdates.get(1).getName());" ++ nl ++
  indent ++ str "assertEquals(" ++ import_value ++ str ", capturedUpdates.get(1).getValue().getValue());" ++ nl ++
  indent ++ str "assertEquals(" ++ dq ++ units2 ++ dq ++ str ", capturedUpdates.get(1).getValue().getUnits());".

(** [re.sub(p, repl, s)] with a replacement that keeps no state. *)
Definition sub (p : regex) (repl : rmatch -> text) (s : text) : text :=
  fst (re_sub p (fun m (_ : unit) => (repl m, tt)) s tt).

Definition stream_name_pattern (name index : string) : regex :=
  lit "assertEquals(" ++ [quo] ++ lit name ++ [quo] ++
  lit ", streamCaptor.getAllValues().get(" ++ lit index ++ lit "));".

Definition stream_name_repl (name index : string) (_ : rmatch) : text :=
  str "assertEquals(" ++ dq ++ str name ++ dq ++
  str ", capturedUpdates.get(" ++ str index ++ str ").getName());".

Definition value_pattern (index : string) : regex :=
  lit "assertEquals(" ++ [Group [not_comma]] ++
  lit ", valueCaptor.getAllValues().get(" ++ lit index ++ lit ").getValue());".

Definition value_repl (index : string) (m : rmatch) : text :=
  str "assertEquals(" ++ group m 1 ++
  str ", capturedUpdates.get(" ++ str index ++ str ").getValue().getValue());".

Definition units_pattern (index : string) : regex :=
  lit "assertEquals(" ++ [quo; Group [not_quote]; quo] ++
  lit ", valueCaptor.getAllValues().get(" ++ lit index ++ lit ").getUnits());".

Definition units_repl (index : string) (m : rmatch) : text :=
  str "assertEquals(" ++ dq ++ group m 1 ++ dq ++
  str ", capturedUpdates.get(" ++ str index ++ str ").getValue().getUnits());".

Definition stream_captor_pattern : regex :=
  [ws_plus] ++ lit "ArgumentCaptor<String> streamCaptor = ArgumentCaptor.forClass(String.class);" ++ eol.

Definition value_captor_pattern : regex :=
  [ws_plus] ++ lit "ArgumentCaptor<EngineNumber> valueCaptor = ArgumentCaptor.forClass(EngineNumber.class);" ++ eol.

(** The text [fix_set_executor_test] computes from the text it read. *)
Definition migrate (original_content : text) : text :=
  let content := original_content in
  let content := sub old_pattern replace_assert_block content in
  let content := sub (stream_name_pattern "domestic" "0") (stream_name_repl "domestic" "0") content in
  let content := sub (stream_name_pattern "import" "1") (stream_name_repl "import" "1") content in
  let content := sub (value_pattern "0") (value_repl "0") content in
  let content := sub (value_pattern "1") (value_repl "1") content in
  let content := sub (units_pattern "0") (units_repl "0") content in
  let content := sub (units_pattern "1") (units_repl "1") content in
  let content := sub stream_captor_pattern (fun _ => []) content in
  let content := sub value_captor_pattern (fun _ => []) content in
  content.

Definition fix_set_executor_test : io unit :=
  do content <- read_file file_path;
  let original_content := content in
  let content := migrate original_content in
  if negb (text_eqb content original_content) then
    write_file file_path content;;
    print ("Fixed " +:+ file_path)
  else
    print ("No changes needed for " +:+ file_path).

Definition main : io unit := fix_set_executor_test.

End FixSetExecutor.

(** ** Sample inputs *)

(** A file system that holds one file. *)
Definition one_file (file_path : string) (content : text) : world :=
  World {[ file_path := content ]} [].

(** Three call sites, one for each pattern, used to try the theorems. *)
Definition sample_call : text :=
  str "engine.setStream(a,   someValueExpr, someMatcherExpr); // rest".

Definition sample_quoted_call : text :=
  str "    engine.setStream(" ++ dq ++ str "domestic" ++ dq ++
  str ", someValueExpr, someMatcherExpr);".

Definition sample_multiline_call : text :=
  str "    engine.setStream(" ++ dq ++ str "domestic" ++ dq ++
  str ", someValueExpr," ++ nl ++ str "        someMatcherExpr);".

(** The head and the body of a test source. *)
Definition sample_header : text :=
  str "package org.kigalisim.lang.operation;" ++ nl ++ nl.

Definition sample_body : text :=
  nl ++ nl ++ str "class T {" ++ nl ++
  str "    engine.setStream(a, b, c);" ++ nl ++
  str "    engine.setStream(d, e, f);" ++ nl ++ str "}" ++ nl.

(** * Properties *)

(** ** Text operations *)

Section TextFacts.
Implicit Types p s old new pre post : text.

Lemma starts_with_spec p s :
  starts_with p s = true <-> exists r, s = p ++ r.
Proof.
  revert s. induction p as [|a p IH]; intros s; simpl.
  - split; eauto.
  - destruct s as [|b s].
    + split; [done | intros [r Hr]; done].
    + destruct (Ascii.eqb_spec a b) as [->|Hne].
      * rewrite IH. split; intros [r Hr]; exists r; simplify_eq; done.
      * split; [done | intros [r Hr]; simplify_eq].
Qed.

Lemma starts_with_app p r : starts_with p (p ++ r) = true.
Proof. apply starts_with_spec. eauto. Qed.

Lemma starts_with_length p s : starts_with p s = true -> length p <= length s.
Proof.
  intros [r ->]%starts_with_spec. rewrite length_app. lia.
Qed.

Lemma contains_spec p s :
  contains p s = true <-> exists a b, s = a ++ p ++ b.
Proof.
  induction s as [|c s IH]; simpl.
  - rewrite orb_false_r, starts_with_spec. split.
    + intros [r Hr]. exists [], r. done.
    + intros (a & b & Hab). destruct a; [|done]. eauto.
  - rewrite orb_true_iff, IH, starts_with_spec. split.
    + intros [[r Hr] | (a & b & Hab)].
      * exists [], r. done.
      * exists (c :: a), b. rewrite Hab. done.
    + intros (a & b & Hab). destruct a as [|c' a].
      * left. eauto.
      * right. exists a, b. simpl in Hab. simplify_eq. done.
Qed.

Lemma contains_app_intro' p x z : contains p (x ++ p ++ z) = true.
Proof. apply contains_spec. by exists x, z. Qed.

Lemma contains_false_cons p c s :
  contains p (c :: s) = false ->
  starts_with p (c :: s) = false /\ contains p s = false.
Proof. simpl. intros H%orb_false_elim. done. Qed.

Lemma contains_false_app_r p a b :
  contains p (a ++ b) = false -> contains p b = false.
Proof.
  intros H. destruct (contains p b) eqn:E; [|done].
  apply contains_spec in E as (x & y & ->).
  assert (contains p (a ++ x ++ p ++ y) = true) as E; [|congruence].
  apply contains_spec. exists (a ++ x), y. by rewrite <- app_assoc.
Qed.

Lemma contains_false_app_l p a b :
  contains p (a ++ b) = false -> contains p a = false.
Proof.
  intros H. destruct (contains p a) eqn:E; [|done].
  apply contains_spec in E as (x & y & ->).
  assert (contains p ((x ++ p ++ y) ++ b) = true) as E; [|congruence].
  apply contains_spec. exists x, (y ++ b). by rewrite <- !app_assoc.
Qed.

(** Passing over the rest of an occurrence. *)
Lemma replace_from_skip old new a r :
  replace_from old new (a ++ r) (length a) = replace_from old new r 0.
Proof. induction a as [|c a IH]; simpl; [done | apply IH]. Qed.

Lemma replace_from_hit old new r :
  old <> [] ->
  replace_from old new (old ++ r) 0 = new ++ replace_from old new r 0.
Proof.
  intros Hne. destruct old as [|c old]; [done|].
  change ((c :: old) ++ r) with (c :: (old ++ r)).
  cbn [replace_from].
  change (c :: old ++ r) with ((c :: old) ++ r).
  rewrite starts_with_app. f_equal.
  replace (length (c :: old) - 1) with (length old) by (simpl; lia).
  apply replace_from_skip.
Qed.

Lemma replace_from_miss old new c s :
  starts_with old (c :: s) = false ->
  replace_from old new (c :: s) 0 = c :: replace_from old new s 0.
Proof. intros H. cbn [replace_from]. by rewrite H. Qed.

(** A text without an occurrence of [old] is returned as it is. *)
Lemma replace_from_absent old new s :
  contains old s = false -> replace_from old new s 0 = s.
Proof.
  induction s as [|c s IH]; [done|].
  intros [Hs Hc]%contains_false_cons.
  rewrite replace_from_miss by done. f_equal. auto.
Qed.

Lemma str_replace_nonempty old new s :
  old <> [] -> str_replace old new s = replace_from old new s 0.
Proof. by destruct old. Qed.

Lemma str_replace_absent old new s :
  old <> [] -> contains old s = false -> str_replace old new s = s.
Proof.
  intros Hne H. destruct old; [done|]. by apply replace_from_absent.
Qed.

(** The first occurrence is replaced and the scan goes on behind it. *)
Lemma replace_from_first old new pre post :
  old <> [] ->
  (forall a b, pre = a ++ b -> b <> [] -> starts_with old (b ++ old ++ post) = false) ->
  replace_from old new (pre ++ old ++ post) 0
  = pre ++ new ++ replace_from old new post 0.
Proof.
  intros Hne. induction pre as [|c pre IH]; intros Hpre.
  - simpl. by apply replace_from_hit.
  - change ((c :: pre) ++ old ++ post) with (c :: (pre ++ old ++ post)).
    rewrite replace_from_miss.
    + simpl. f_equal. apply IH. intros a b -> Hb.
      apply (Hpre (c :: a) b); done.
    + apply (Hpre [] (c :: pre)); done.
Qed.
Lemma starts_with_app_l p a b :
  starts_with p a = true -> starts_with p (a ++ b) = true.
Proof.
  intros [r ->]%starts_with_spec. apply starts_with_spec.
  exists (r ++ b). by rewrite app_assoc.
Qed.

(** An occurrence of a borderless [old] that begins before another
    occurrence ends before it. *)
Lemma borderless_no_straddle old a post :
  borderless old = true -> a <> [] ->
  starts_with old (a ++ old ++ post) = true -> starts_with old a = true.
Proof.
  intros Hb Ha [r Hr]%starts_with_spec.
  apply app_eq_app in Hr as [l [[-> _] | [Hold Hr]]].
  { apply starts_with_app. }
  destruct l as [|x l].
  { rewrite app_nil_r in Hold. subst a. rewrite <- (app_nil_r old) at 2.
    apply starts_with_app. }
  apply app_eq_app in Hr as [l' [[Hl _] | [Hl _]]].
  - exfalso. unfold borderless in Hb. rewrite forallb_forall in Hb.
    specialize (Hb (length a)).
    assert (drop (length a) old = x :: l) as Hdrop.
    { rewrite Hold. apply drop_app_length. }
    rewrite Hdrop in Hb.
    assert (starts_with (x :: l) old = true) as Hpre.
    { rewrite Hl. apply starts_with_app. }
    rewrite Hpre in Hb. simpl in Hb.
    assert (In (length a) (seq 1 (length old - 1))) as Hin; [|by apply Hb in Hin].
    apply in_seq. rewrite Hold, length_app. simpl.
    destruct a; [done | simpl; lia].
  - exfalso. apply (f_equal length) in Hold.
    rewrite Hl, !length_app in Hold. destruct a; [done | simpl in Hold; lia].
Qed.

(** Replacing in a text that holds an occurrence of a borderless [old]:
    what is before and what is behind are replaced on their own. *)
Lemma replace_from_split old new pre post k :
  borderless old = true -> old <> [] -> k <= length pre ->
  replace_from old new (pre ++ old ++ post) k
  = replace_from old new pre k ++ new ++ replace_from old new post 0.
Proof.
  intros Hb Hne. revert k. induction pre as [|c pre IH]; intros k Hk.
  - simpl in Hk. replace k with 0 by lia. simpl. by apply replace_from_hit.
  - change ((c :: pre) ++ old ++ post) with (c :: (pre ++ old ++ post)).
    destruct k as [|k].
    + cbn [replace_from].
      change (c :: pre ++ old ++ post) with ((c :: pre) ++ old ++ post).
      destruct (starts_with old (c :: pre)) eqn:Hs.
      * rewrite (starts_with_app_l _ _ _ Hs), <- app_assoc. f_equal.
        apply IH. apply starts_with_length in Hs. simpl in Hs. lia.
      * destruct (starts_with old ((c :: pre) ++ old ++ post)) eqn:Hs'.
        { apply borderless_no_straddle in Hs'; [congruence | done | done]. }
        simpl. f_equal. apply IH. lia.
    + cbn [replace_from]. apply IH. simpl in Hk. lia.
Qed.

Lemma replace_from_once old new pre post :
  borderless old = true -> old <> [] ->
  contains old pre = false -> contains old post = false ->
  replace_from old new (pre ++ old ++ post) 0 = pre ++ new ++ post.
Proof.
  intros Hb Hne Hpre Hpost.
  rewrite replace_from_split by (done || lia).
  by rewrite !replace_from_absent.
Qed.
End TextFacts.

(** ** Where a text can occur in a concatenation *)

Section OccurrenceFacts.
Implicit Types p a b t : text.

Lemma app_occurrence a b x p y :
  a ++ b = x ++ p ++ y ->
  (exists z, a = x ++ p ++ z) \/ (exists z, b = z ++ p ++ y) \/
  (exists p1 p2, p = p1 ++ p2 /\ p1 <> [] /\ p2 <> [] /\ a = x ++ p1 /\ b = p2 ++ y).
Proof.
  intros [l [[-> Hb] | [-> ->]]]%app_eq_app.
  - symmetry in Hb. apply app_eq_app in Hb as [l' [[-> ->] | [-> ->]]].
    + left. by exists l'.
    + destruct l as [|c l].
      { right. left. exists []. done. }
      destruct l' as [|c' l'].
      { left. exists []. by rewrite !app_nil_r. }
      right. right. exists (c :: l), (c' :: l'). by split_and!.
  - right. left. by exists l.
Qed.

Lemma free_of_self c u v : free_of c (u ++ c :: v) -> False.
Proof.
  intros [_ [Hc _]%Forall_cons]%Forall_app. unfold not_chr in Hc.
  by rewrite Ascii.eqb_refl in Hc.
Qed.

Lemma contains_nil_false p : p <> [] -> contains p [] = false.
Proof. by destruct p. Qed.

(** A character that is not in [p] separates the occurrences of [p]. *)
Lemma contains_bar p c a b :
  free_of c p -> contains p a = false -> contains p b = false ->
  contains p (a ++ c :: b) = false.
Proof.
  intros Hc Ha Hb. destruct (contains p (a ++ c :: b)) eqn:E; [|done].
  apply contains_spec in E as (x & y & E).
  apply app_occurrence in E
    as [(z & ->) | [(z & E) | (p1 & p2 & -> & H1 & H2 & -> & E)]].
  - rewrite (contains_app_intro' p x z) in Ha. done.
  - destruct z as [|c' z]; simpl in E.
    + destruct p as [|c' p]; [by destruct a|].
      injection E as <- _. by destruct (free_of_self c [] p).
    + injection E as _ ->. rewrite (contains_app_intro' p z y) in Hb. done.
  - destruct p2 as [|c' p2]; [done|]. injection E as <- _.
    by destruct (free_of_self c p1 p2).
Qed.

(** A character that [p] has at its end only: an occurrence that holds it
    ends there. *)
Lemma contains_bar_end p c a b :
  free_of c (removelast p) -> contains p (a ++ [c]) = false ->
  contains p b = false -> contains p (a ++ c :: b) = false.
Proof.
  intros Hc Ha Hb. destruct (contains p (a ++ c :: b)) eqn:E; [|done].
  apply contains_spec in E as (x & y & E).
  change (a ++ c :: b) with (a ++ [c] ++ b) in E. rewrite app_assoc in E.
  apply app_occurrence in E
    as [(z & E) | [(z & ->) | (p1 & p2 & -> & H1 & H2 & E & ->)]].
  - rewrite E, (contains_app_intro' p x z) in Ha. done.
  - rewrite (contains_app_intro' p z y) in Hb. done.
  - destruct (exists_last H1) as (q & l & ->).
    rewrite app_assoc in E. apply app_inj_tail in E as [_ <-].
    rewrite removelast_app in Hc by done. rewrite <- app_assoc in Hc.
    by destruct (free_of_self c q (removelast p2)).
Qed.

(** Behind [a] a text without the last character of [p] adds no
    occurrence. *)
Lemma contains_tail p q l a t :
  p = q ++ [l] -> free_of l t -> contains p a = false ->
  contains p (a ++ t) = false.
Proof.
  intros -> Hl Ha. destruct (contains (q ++ [l]) (a ++ t)) eqn:E; [|done].
  apply contains_spec in E as (x & y & E).
  apply app_occurrence in E
    as [(z & ->) | [(z & ->) | (p1 & p2 & Hp & H1 & H2 & -> & ->)]].
  - rewrite (contains_app_intro' (q ++ [l]) x z) in Ha. done.
  - rewrite <- !app_assoc in Hl. apply Forall_app in Hl as [_ Hl].
    by destruct (free_of_self l q y).
  - destruct (exists_last H2) as (q2 & l2 & ->).
    rewrite app_assoc in Hp. apply app_inj_tail in Hp as [_ <-].
    rewrite <- app_assoc in Hl. by destruct (free_of_self l q2 y).
Qed.

Lemma clash_starts_with p t x :
  clash p t = true -> starts_with p (t ++ x) = false.
Proof.
  revert t. induction p as [|a p IH]; intros [|b t]; simpl; try done.
  destruct (Ascii.eqb a b); simpl; [apply IH | done].
Qed.

Lemma clash_everywhere_contains p t x :
  clash_everywhere p t = true -> contains p x = false ->
  contains p (t ++ x) = false.
Proof.
  induction t as [|c t IH]; [done|].
  intros [Hc Ht]%andb_true_iff Hx.
  change ((c :: t) ++ x) with (c :: (t ++ x)). cbn [contains].
  change (c :: t ++ x) with ((c :: t) ++ x).
  by rewrite (clash_starts_with _ _ _ Hc), IH.
Qed.

Lemma starts_with_app_cancel u v s :
  starts_with (u ++ v) (u ++ s) = starts_with v s.
Proof. induction u as [|c u IH]; simpl; [done|]. by rewrite Ascii.eqb_refl. Qed.
End OccurrenceFacts.

(** ** Lines and decimal numbers *)

(** Closed facts about literal texts are decided by evaluation. *)
Ltac by_evaluation := apply (bool_decide_unpack _); vm_compute; exact I.

Section LineFacts.
Implicit Types (l s : text) (ls : list text).

Lemma free_of_app x l1 l2 : free_of x l1 -> free_of x l2 -> free_of x (l1 ++ l2).
Proof. intros H1 H2. apply Forall_app. done. Qed.

Lemma split_lines_cons_free c s :
  not_chr newline c = true ->
  split_lines (c :: s)
  = match split_lines s with
    | [] => [[c]]
    | l :: ls => (c :: l) :: ls
    end.
Proof.
  unfold not_chr. intros H%negb_true_iff. simpl. by rewrite H.
Qed.

(** A first line and what follows its line feed. *)
Lemma split_lines_first l s :
  free_of newline l -> split_lines (l ++ nl ++ s) = l :: split_lines s.
Proof.
  induction 1 as [|c l Hc Hl IH].
  - simpl. done.
  - change ((c :: l) ++ nl ++ s) with (c :: (l ++ nl ++ s)).
    rewrite split_lines_cons_free by done. by rewrite IH.
Qed.

Lemma split_lines_last l : free_of newline l -> split_lines l = [l].
Proof.
  induction 1 as [|c l Hc Hl IH]; [done|].
  rewrite split_lines_cons_free by done. by rewrite IH.
Qed.

Lemma split_join_lines ls :
  ls <> [] -> Forall (free_of newline) ls -> split_lines (join_lines ls) = ls.
Proof.
  intros Hne Hls. induction Hls as [|l ls Hl Hls IH]; [done|].
  destruct ls as [|l' ls].
  - simpl. by apply split_lines_last.
  - change (join_lines (l :: l' :: ls)) with (l ++ nl ++ join_lines (l' :: ls)).
    rewrite split_lines_first by done. f_equal. by apply IH.
Qed.

Lemma str_inj a b : str a = str b -> a = b.
Proof.
  unfold str. intros H.
  rewrite <- (string_of_list_ascii_of_string a), <- (string_of_list_ascii_of_string b).
  by rewrite H.
Qed.

Lemma decimal_inj n m : decimal n = decimal m -> n = m.
Proof.
  unfold decimal. intros H.
  assert (Some (Nat.to_uint n) = Some (Nat.to_uint m)) as [= Hu].
  { rewrite <- !NilEmpty.usu. by rewrite H. }
  rewrite <- (Unsigned.of_to n), <- (Unsigned.of_to m). by rewrite Hu.
Qed.

Lemma fmt_int_inj n m : fmt_int n = fmt_int m -> n = m.
Proof. unfold fmt_int. intros H%str_inj. by apply decimal_inj. Qed.

(** A number is printed with digits only. *)
Lemma fmt_int_digits n :
  Forall (fun c => (48 <=? nat_of_ascii c) && (nat_of_ascii c <=? 57) = true) (fmt_int n).
Proof.
  unfold fmt_int, decimal. generalize (Nat.to_uint n) as d.
  induction d; simpl; constructor; done.
Qed.

Lemma fmt_int_free x n :
  (48 <=? nat_of_ascii x) && (nat_of_ascii x <=? 57) = false ->
  free_of x (fmt_int n).
Proof.
  intros Hx. eapply Forall_impl; [apply fmt_int_digits|].
  intros c Hc. unfold not_chr. apply negb_true_iff.
  destruct (Ascii.eqb_spec c x) as [->|]; [congruence | done].
Qed.
End LineFacts.

(** ** The matcher *)

Section MatcherFacts.
Context {R : Type}.
Implicit Types (s w : text) (k : text -> option R).

Lemma rep_sound cls min s k r :
  rep cls min s k = Some r ->
  exists w s', s = w ++ s' /\ atom_lang (Rep cls min) w /\ k s' = Some r.
Proof.
  revert min. induction s as [|c s IH]; intros min; simpl.
  - destruct min; [|done]. intros Hk. exists [], [].
    split_and!; [done | by constructor | done].
  - assert (match min with 0 => k (c :: s) | S _ => None end = Some r ->
            exists w s', c :: s = w ++ s' /\ atom_lang (Rep cls min) w /\ k s' = Some r)
      as Hstop.
    { destruct min; [|done]. intros Hk. exists [], (c :: s).
      split_and!; [done | by constructor | done]. }
    destruct (cls c) eqn:Hc; [|done].
    destruct (rep cls (pred min) s k) eqn:Hrep; [|done].
    intros [= ->]. apply IH in Hrep as (w & s' & -> & Hw & Hk).
    exists (c :: w), s'. split_and!; [done | | done].
    inversion Hw; subst. constructor; [by constructor | simpl; lia].
Qed.

Lemma match_atoms_sound l s k r :
  match_atoms l s k = Some r ->
  exists w s', s = w ++ s' /\ atoms_lang l w /\ k s' = Some r.
Proof.
  revert s k. induction l as [|a l IH]; intros s k; simpl.
  - intros Hk. exists [], s. split_and!; [done | constructor | done].
  - destruct a as [c | cls min].
    + destruct s as [|c' s]; [done|].
      destruct (Ascii.eqb_spec c c') as [<-|]; [|done].
      intros (w & s' & -> & Hw & Hk)%IH.
      exists ([c] ++ w), s'. split_and!; [done | | done].
      constructor; [constructor | done].
    + intros (w1 & s1 & -> & Hw1 & (w2 & s2 & -> & Hw2 & Hk)%IH)%rep_sound.
      exists (w1 ++ w2), s2. rewrite <- app_assoc.
      split_and!; [done | by constructor | done].
Qed.

Lemma match_items_sound p s caps (k : text -> list text -> option R) r :
  match_items p s caps k = Some r ->
  exists w s' gs, s = w ++ s' /\ matches p w gs /\ k s' (caps ++ gs) = Some r.
Proof.
  revert s caps. induction p as [|i p IH]; intros s caps; cbn [match_items].
  - intros Hk. exists [], s, []. rewrite app_nil_r.
    split_and!; [done | constructor | done].
  - destruct i as [a | g].
    + intros (w1 & s1 & -> & Hw1 & Hk)%match_atoms_sound.
      apply IH in Hk as (w2 & s2 & gs & -> & Hw2 & Hk).
      exists (w1 ++ w2), s2, gs. rewrite <- app_assoc.
      split_and!; [done | | done].
      inversion Hw1 as [|? ? ? ? Ha Hnil]; subst. inversion Hnil; subst.
      rewrite app_nil_r. by constructor.
    + intros (w1 & s1 & -> & Hw1 & Hk)%match_atoms_sound.
      replace (take (length (w1 ++ s1) - length s1) (w1 ++ s1)) with w1 in Hk.
      2:{ rewrite length_app, Nat.add_sub. symmetry. apply take_app_length. }
      apply IH in Hk as (w2 & s2 & gs & -> & Hw2 & Hk).
      exists (w1 ++ w2), s2, (w1 :: gs). rewrite <- app_assoc in *.
      split_and!; [done | by constructor | done].
Qed.

(** A run of literal characters matches that text and nothing else. *)
Lemma match_atoms_chars a l s k :
  match_atoms (map Chr a ++ l) s k
  = if starts_with a s then match_atoms l (drop (length a) s) k else None.
Proof.
  revert s. induction a as [|c a IH]; intros s; simpl; [done|].
  destruct s as [|c' s]; [done|].
  destruct (Ascii.eqb c c'); [apply IH | done].
Qed.

Lemma match_items_chars a p s caps (k : text -> list text -> option R) :
  match_items (map (fun c => Plain (Chr c)) a ++ p) s caps k
  = if starts_with a s then match_items p (drop (length a) s) caps k else None.
Proof.
  revert s. induction a as [|c a IH]; intros s; simpl; [done|].
  destruct s as [|c' s]; [done|].
  destruct (Ascii.eqb c c'); [apply IH | done].
Qed.
End MatcherFacts.

Lemma re_match_sound p s m :
  re_match p s = Some m ->
  exists w s', s = w ++ s' /\ matches p w (groups m) /\ mlen m = length w.
Proof.
  unfold re_match.
  intros (w & s' & gs & -> & Hw & [= <-])%match_items_sound.
  exists w, s'. simpl. rewrite length_app, Nat.add_sub. done.
Qed.

(** A pattern that begins with a literal text matches only where that
    text begins. *)
Lemma re_match_lit_miss x p s :
  starts_with (str x) s = false -> re_match (lit x ++ p) s = None.
Proof.
  intros H. unfold re_match, lit. by rewrite match_items_chars, H.
Qed.

Lemma matches_lit x p w gs :
  matches (lit x ++ p) w gs ->
  exists w', w = str x ++ w' /\ matches p w' gs.
Proof.
  unfold lit. generalize (str x) as a. intros a. revert w.
  induction a as [|c a IH]; intros w; simpl.
  - eauto.
  - inversion 1 as [|? ? w1 w2 ? Hc Hrest|]; subst.
    inversion Hc; subst. apply IH in Hrest as (w' & -> & Hrest). eauto.
Qed.

(** ** Greedy repetition

    A repetition takes the whole run of characters of its class when the
    rest of the pattern matches behind the run; when it does not, the run
    is given back from its end. *)

Section GreedyFacts.
Context {R : Type}.
Implicit Types (s w : text).

Lemma rep_run cls min w s (k : text -> option R) r :
  Forall (fun c => cls c = true) w -> min <= length w ->
  (forall c s', s = c :: s' -> cls c = false) ->
  k s = Some r -> rep cls min (w ++ s) k = Some r.
Proof.
  intros Hw. revert min. induction Hw as [|c w Hc Hw IH]; intros min Hmin Hs Hk.
  - simpl in Hmin. replace min with 0 by lia. simpl.
    destruct s as [|c s']; [done|]. simpl. by rewrite (Hs c s').
  - simpl. rewrite Hc. rewrite IH; [done | simpl in Hmin; lia | done | done].
Qed.

Lemma rep_back cls w s (k : text -> option R) :
  Forall (fun c => cls c = true) w ->
  (forall a b, w = a ++ b -> a <> [] -> k (b ++ s) = None) ->
  (forall c s', s = c :: s' -> cls c = false) ->
  rep cls 0 (w ++ s) k = k (w ++ s).
Proof.
  intros Hw. induction Hw as [|c w Hc Hw IH]; intros Hfail Hs.
  - simpl. destruct s as [|c s']; [done|]. simpl. by rewrite (Hs c s').
  - simpl. rewrite Hc. rewrite IH; [| |done].
    + by rewrite (Hfail [c] w).
    + intros a b -> Ha. apply (Hfail (c :: a) b); done.
Qed.

Lemma rep_first_success cls min w1 w2 s (k : text -> option R) r :
  Forall (fun c => cls c = true) w1 -> Forall (fun c => cls c = true) w2 ->
  min <= length w1 ->
  (forall a b, w2 = a ++ b -> a <> [] -> k (b ++ s) = None) ->
  (forall c s', s = c :: s' -> cls c = false) ->
  k (w2 ++ s) = Some r ->
  rep cls min (w1 ++ w2 ++ s) k = Some r.
Proof.
  intros Hw1 Hw2. revert min. induction Hw1 as [|c w1 Hc Hw1 IH];
    intros min Hmin Hfail Hs Hk.
  - simpl in Hmin. replace min with 0 by lia. simpl. by rewrite rep_back.
  - simpl. rewrite Hc. rewrite IH; [done | simpl in Hmin; lia | done | done | done].
Qed.

Lemma match_items_chr c p s caps (k : text -> list text -> option R) :
  match_items (Plain (Chr c) :: p) (c :: s) caps k = match_items p s caps k.
Proof. simpl. by rewrite Ascii.eqb_refl. Qed.

Lemma match_items_lit x p s caps (k : text -> list text -> option R) :
  match_items (lit x ++ p) (str x ++ s) caps k = match_items p s caps k.
Proof.
  unfold lit. by rewrite match_items_chars, starts_with_app, drop_app_length.
Qed.

Lemma match_items_lit_end x s caps (k : text -> list text -> option R) :
  match_items (lit x) (str x ++ s) caps k = k s caps.
Proof. rewrite <- (app_nil_r (lit x)). by rewrite match_items_lit. Qed.

Lemma match_items_rep_run cls min p w s caps (k : text -> list text -> option R) r :
  Forall (fun c => cls c = true) w -> min <= length w ->
  (forall c s', s = c :: s' -> cls c = false) ->
  match_items p s caps k = Some r ->
  match_items (Plain (Rep cls min) :: p) (w ++ s) caps k = Some r.
Proof.
  intros Hw Hmin Hs Hk. cbn [match_items match_atoms]. by apply rep_run.
Qed.

Lemma match_items_rep_first cls min p w1 w2 s caps
    (k : text -> list text -> option R) r :
  Forall (fun c => cls c = true) w1 -> Forall (fun c => cls c = true) w2 ->
  min <= length w1 ->
  (forall a b, w2 = a ++ b -> a <> [] -> match_items p (b ++ s) caps k = None) ->
  (forall c s', s = c :: s' -> cls c = false) ->
  match_items p (w2 ++ s) caps k = Some r ->
  match_items (Plain (Rep cls min) :: p) (w1 ++ w2 ++ s) caps k = Some r.
Proof.
  intros Hw1 Hw2 Hmin Hfail Hs Hk. cbn [match_items match_atoms].
  by apply rep_first_success.
Qed.

Lemma match_items_chr_miss c p s caps (k : text -> list text -> option R) :
  (forall s', s <> c :: s') ->
  match_items (Plain (Chr c) :: p) s caps k = None.
Proof.
  intros Hs. destruct s as [|c' s']; [done|]. simpl.
  destruct (Ascii.eqb_spec c c') as [<-|]; [by destruct (Hs s') | done].
Qed.

Lemma match_items_group_run cls p w s caps (k : text -> list text -> option R) r :
  Forall (fun c => cls c = true) w -> w <> [] ->
  (forall c s', s = c :: s' -> cls c = false) ->
  match_items p s (caps ++ [w]) k = Some r ->
  match_items (Group [Rep cls 1] :: p) (w ++ s) caps k = Some r.
Proof.
  intros Hw Hne Hs Hk. cbn [match_items match_atoms].
  apply rep_run; [done | destruct w; [done | simpl; lia] | done |].
  by rewrite length_app, Nat.add_sub, take_app_length.
Qed.
End GreedyFacts.

Lemma solid_start_head (cls : ascii -> bool) w s :
  solid_start w -> (forall c, is_space c = false -> cls c = false) ->
  forall c s', w ++ s = c :: s' -> cls c = false.
Proof. intros (c0 & w' & -> & Hc0) Hcls c s' [= <- _]. auto. Qed.

(** ** The shape of a matched call site *)

Lemma matches_nil_inv w gs : matches [] w gs -> w = [] /\ gs = [].
Proof. by inversion 1. Qed.

Lemma matches_chr_inv c p w gs :
  matches (Plain (Chr c) :: p) w gs ->
  exists w2, w = c :: w2 /\ matches p w2 gs.
Proof.
  inversion 1 as [|? ? w1 w2 ? Hc Hrest|]; subst. inversion Hc; subst. eauto.
Qed.

Lemma matches_rep_inv cls min p w gs :
  matches (Plain (Rep cls min) :: p) w gs ->
  exists w1 w2, w = w1 ++ w2 /\ Forall (fun c => cls c = true) w1 /\
    min <= length w1 /\ matches p w2 gs.
Proof.
  inversion 1 as [|? ? w1 w2 ? Hc Hrest|]; subst. inversion Hc; subst.
  by eexists _, _.
Qed.

Lemma matches_group_rep_inv cls min p w gs :
  matches (Group [Rep cls min] :: p) w gs ->
  exists w1 w2 gs', w = w1 ++ w2 /\ gs = w1 :: gs' /\
    Forall (fun c => cls c = true) w1 /\ min <= length w1 /\ matches p w2 gs'.
Proof.
  inversion 1 as [| |? ? w1 w2 gs' Hg Hrest]; subst.
  inversion Hg as [|? ? u1 u2 Ha Hnil]; subst.
  inversion Hnil; subst. inversion Ha; subst. rewrite app_nil_r.
  by eexists _, _, _.
Qed.

Lemma nonempty_length (w : text) : 1 <= length w -> w <> [].
Proof. destruct w; simpl; [lia | done]. Qed.

Module CallSiteShape.

(** [engine.setStream(<name>,<w1><value>,<w2><year_matcher>);] *)
Lemma test_migration w gs :
  matches FixTestMigration.setstream_pattern w gs ->
  exists name w1 value w2 year_matcher,
    w = str "engine.setStream(" ++ name ++ str "," ++ w1 ++ value ++
        str "," ++ w2 ++ year_matcher ++ str ");" /\
    gs = [name; value; year_matcher] /\
    blank w1 /\ blank w2 /\
    (free_of "," name /\ name <> []) /\
    (free_of "," value /\ value <> []) /\
    (free_of ")" year_matcher /\ year_matcher <> []).
Proof.
  unfold FixTestMigration.setstream_pattern.
  intros (w0 & -> & H)%matches_lit. cbn [app] in H.
  apply matches_group_rep_inv in H as (name & ? & ? & -> & -> & Hname & Hn1 & H).
  apply matches_chr_inv in H as (? & -> & H).
  apply matches_rep_inv in H as (w1 & ? & -> & Hw1 & _ & H).
  apply matches_group_rep_inv in H as (value & ? & ? & -> & -> & Hvalue & Hv1 & H).
  apply matches_chr_inv in H as (? & -> & H).
  apply matches_rep_inv in H as (w2 & ? & -> & Hw2 & _ & H).
  apply matches_group_rep_inv in H as (ym & ? & ? & -> & -> & Hym & Hy1 & H).
  apply matches_chr_inv in H as (? & -> & H).
  apply matches_chr_inv in H as (? & -> & H).
  apply matches_nil_inv in H as [-> ->].
  exists name, w1, value, w2, ym.
  split_and!; auto using nonempty_length.
Qed.

(** [<indent>engine.setStream("<name>",<w1><value>,<w2><year_matcher>);] *)
Lemma remaining w gs :
  matches FixRemaining.pattern w gs ->
  exists indent name w1 value w2 year_matcher,
    w = indent ++ str "engine.setStream(" ++ dq ++ name ++ dq ++ str "," ++ w1 ++
        value ++ str "," ++ w2 ++ year_matcher ++ str ");" /\
    gs = [indent; name; value; year_matcher] /\
    blank w1 /\ blank w2 /\
    (blank indent /\ indent <> []) /\
    (free_of dquote name /\ name <> []) /\
    (free_of "," value /\ value <> []) /\
    (free_of ")" year_matcher /\ year_matcher <> []).
Proof.
  unfold FixRemaining.pattern. cbn [app].
  intros (indent & ? & ? & -> & -> & Hindent & Hi1 & H)%matches_group_rep_inv.
  apply matches_lit in H as (w0 & -> & H). cbn [app] in H.
  apply matches_chr_inv in H as (? & -> & H).
  apply matches_group_rep_inv in H as (name & ? & ? & -> & -> & Hname & Hn1 & H).
  apply matches_chr_inv in H as (? & -> & H).
  apply matches_chr_inv in H as (? & -> & H).
  apply matches_rep_inv in H as (w1 & ? & -> & Hw1 & _ & H).
  apply matches_group_rep_inv in H as (value & ? & ? & -> & -> & Hvalue & Hv1 & H).
  apply matches_chr_inv in H as (? & -> & H).
  apply matches_rep_inv in H as (w2 & ? & -> & Hw2 & _ & H).
  apply matches_group_rep_inv in H as (ym & ? & ? & -> & -> & Hym & Hy1 & H).
  apply matches_chr_inv in H as (? & -> & H).
  apply matches_chr_inv in H as (? & -> & H).
  apply matches_nil_inv in H as [-> ->].
  exists indent, name, w1, value, w2, ym.
  split_and!; auto using nonempty_length.
Qed.

(** The same with a line feed among the white space before the last
    argument. *)
Lemma remaining_multiline w gs :
  matches FixRemaining.multiline_pattern w gs ->
  exists indent name w1 value w2 w3 year_matcher,
    w = indent ++ str "engine.setStream(" ++ dq ++ name ++ dq ++ str "," ++ w1 ++
        value ++ str "," ++ (w2 ++ nl ++ w3) ++ year_matcher ++ str ");" /\
    gs = [indent; name; value; year_matcher] /\
    blank w1 /\ blank (w2 ++ nl ++ w3) /\
    (blank indent /\ indent <> []) /\
    (free_of dquote name /\ name <> []) /\
    (free_of "," value /\ value <> []) /\
    (free_of ")" year_matcher /\ year_matcher <> []).
Proof.
  unfold FixRemaining.multiline_pattern. cbn [app].
  intros (indent & ? & ? & -> & -> & Hindent & Hi1 & H)%matches_group_rep_inv.
  apply matches_lit in H as (w0 & -> & H). cbn [app] in H.
  apply matches_chr_inv in H as (? & -> & H).
  apply matches_group_rep_inv in H as (name & ? & ? & -> & -> & Hname & Hn1 & H).
  apply matches_chr_inv in H as (? & -> & H).
  apply matches_chr_inv in H as (? & -> & H).
  apply matches_rep_inv in H as (w1 & ? & -> & Hw1 & _ & H).
  apply matches_group_rep_inv in H as (value & ? & ? & -> & -> & Hvalue & Hv1 & H).
  apply matches_chr_inv in H as (? & -> & H).
  apply matches_rep_inv in H as (w2 & ? & -> & Hw2 & _ & H).
  apply matches_chr_inv in H as (? & -> & H).
  apply matches_rep_inv in H as (w3 & ? & -> & Hw3 & _ & H).
  apply matches_group_rep_inv in H as (ym & ? & ? & -> & -> & Hym & Hy1 & H).
  apply matches_chr_inv in H as (? & -> & H).
  apply matches_chr_inv in H as (? & -> & H).
  apply matches_nil_inv in H as [-> ->].
  exists indent, name, w1, value, w2, w3, ym.
  split_and!; auto using nonempty_length.
  - simpl. by rewrite <- !app_assoc.
  - apply Forall_app. split; [done|]. apply Forall_app. split; [|done].
    repeat constructor.
Qed.
End CallSiteShape.

(** ** The match at a call site

    Conversely, a text of the shape of a call site is matched, and the
    groups are its arguments as they stand, without the white space that
    directly follows a comma. *)

Ltac next_is c := simpl; intros ? ? [= <- _]; reflexivity.

Module CallSiteMatch.

Lemma matched_test_migration name w1 value w2 year_matcher rest :
  name <> [] -> free_of "," name ->
  blank w1 -> solid_start value -> free_of "," value ->
  blank w2 -> solid_start year_matcher -> free_of ")" year_matcher ->
  exists m,
    re_match FixTestMigration.setstream_pattern
      (str "engine.setStream(" ++ name ++ str "," ++ w1 ++ value ++
       str "," ++ w2 ++ year_matcher ++ str ");" ++ rest) = Some m /\
    groups m = [name; value; year_matcher].
Proof.
  intros Hn0 Hn Hw1 Hv0 Hv Hw2 Hy0 Hy.
  assert (value <> [] /\ year_matcher <> []) as [Hv1 Hy1].
  { destruct Hv0 as (? & ? & -> & _), Hy0 as (? & ? & -> & _). done. }
  eexists (Build_rmatch [name; value; year_matcher] _). split; [|reflexivity].
  unfold re_match, FixTestMigration.setstream_pattern.
  rewrite match_items_lit. cbn [app].
  apply match_items_group_run; [done | done | next_is "," |].
  change (str "," ++ ?x) with ("," %char :: x). rewrite match_items_chr.
  apply match_items_rep_run; [done | lia | by apply solid_start_head |].
  apply match_items_group_run; [done | done | next_is "," |].
  change (str "," ++ ?x) with ("," %char :: x). rewrite match_items_chr.
  apply match_items_rep_run; [done | lia | by apply solid_start_head |].
  apply match_items_group_run; [done | done | next_is ")" |].
  rewrite match_items_lit_end. reflexivity.
Qed.

Lemma matched_remaining indent name w1 value w2 year_matcher rest :
  blank indent -> indent <> [] ->
  name <> [] -> free_of dquote name ->
  blank w1 -> solid_start value -> free_of "," value ->
  blank w2 -> solid_start year_matcher -> free_of ")" year_matcher ->
  exists m,
    re_match FixRemaining.pattern
      (indent ++ str "engine.setStream(" ++ dq ++ name ++ dq ++ str "," ++ w1 ++
       value ++ str "," ++ w2 ++ year_matcher ++ str ");" ++ rest) = Some m /\
    groups m = [indent; name; value; year_matcher].
Proof.
  intros Hi Hi0 Hn0 Hn Hw1 Hv0 Hv Hw2 Hy0 Hy.
  assert (value <> [] /\ year_matcher <> []) as [Hv1 Hy1].
  { destruct Hv0 as (? & ? & -> & _), Hy0 as (? & ? & -> & _). done. }
  eexists (Build_rmatch [indent; name; value; year_matcher] _). split; [|reflexivity].
  unfold re_match, FixRemaining.pattern. cbn [app].
  apply match_items_group_run; [done | done | next_is "e" |].
  rewrite match_items_lit. cbn [app].
  change (dq ++ ?x) with (dquote :: x). unfold quo. rewrite match_items_chr.
  apply match_items_group_run; [done | done | next_is dquote |].
  change (dq ++ ?x) with (dquote :: x). rewrite match_items_chr.
  change (str "," ++ ?x) with ("," %char :: x). rewrite match_items_chr.
  apply match_items_rep_run; [done | lia | by apply solid_start_head |].
  apply match_items_group_run; [done | done | next_is "," |].
  change (str "," ++ ?x) with ("," %char :: x). rewrite match_items_chr.
  apply match_items_rep_run; [done | lia | by apply solid_start_head |].
  apply match_items_group_run; [done | done | next_is ")" |].
  rewrite match_items_lit_end. reflexivity.
Qed.

(** With a line feed in the white space before the last argument: the
    first [\s*] gives back what follows the last line feed. *)
Lemma matched_remaining_multiline indent name w1 value w2 w3 year_matcher rest :
  blank indent -> indent <> [] ->
  name <> [] -> free_of dquote name ->
  blank w1 -> solid_start value -> free_of "," value ->
  blank w2 -> blank w3 -> free_of newline w3 ->
  solid_start year_matcher -> free_of ")" year_matcher ->
  exists m,
    re_match FixRemaining.multiline_pattern
      (indent ++ str "engine.setStream(" ++ dq ++ name ++ dq ++ str "," ++ w1 ++
       value ++ str "," ++ (w2 ++ nl ++ w3) ++ year_matcher ++ str ");" ++ rest) = Some m /\
    groups m = [indent; name; value; year_matcher].
Proof.
  intros Hi Hi0 Hn0 Hn Hw1 Hv0 Hv Hw2 Hw3 Hw3' Hy0 Hy.
  assert (value <> [] /\ year_matcher <> []) as [Hv1 Hy1].
  { destruct Hv0 as (? & ? & -> & _), Hy0 as (? & ? & -> & _). done. }
  eexists (Build_rmatch [indent; name; value; year_matcher] _). split; [|reflexivity].
  unfold re_match, FixRemaining.multiline_pattern. cbn [app].
  apply match_items_group_run; [done | done | next_is "e" |].
  rewrite match_items_lit. cbn [app].
  change (dq ++ ?x) with (dquote :: x). unfold quo. rewrite match_items_chr.
  apply match_items_group_run; [done | done | next_is dquote |].
  change (dq ++ ?x) with (dquote :: x). rewrite match_items_chr.
  change (str "," ++ ?x) with ("," %char :: x). rewrite match_items_chr.
  apply match_items_rep_run; [done | lia | by apply solid_start_head |].
  apply match_items_group_run; [done | done | next_is "," |].
  change (str "," ++ ?x) with ("," %char :: x). rewrite match_items_chr.
  rewrite <- !app_assoc.
  change (nl ++ w3 ++ ?x) with ((nl ++ w3) ++ x).
  apply match_items_rep_first;
    [done | apply Forall_app; split; [by repeat constructor | done] | lia | |
     by apply solid_start_head |].
  - (* behind a later point of the run no line feed follows *)
    intros a b Hab Ha. destruct a as [|c a]; [done|].
    simpl in Hab. injection Hab as _ ->.
    assert (free_of newline b) as Hb by (by apply Forall_app in Hw3' as [_ ?]).
    apply match_items_chr_miss. intros s' Heq.
    destruct b as [|c' b].
    + destruct Hy0 as (c0 & y' & -> & Hc0). simpl in Heq.
      injection Heq as -> _. done.
    + simpl in Heq. injection Heq as -> _.
      apply Forall_cons in Hb as [Hc' _]. unfold not_chr in Hc'.
      by rewrite Ascii.eqb_refl in Hc'.
  - change ((nl ++ w3) ++ ?x) with (newline :: (w3 ++ x)).
    unfold lf. rewrite match_items_chr.
    apply match_items_rep_run; [done | lia | by apply solid_start_head |].
    apply match_items_group_run; [done | done | next_is ")" |].
    rewrite match_items_lit_end. reflexivity.
Qed.
End CallSiteMatch.

(** ** Searching and substituting *)

Lemma re_search_None_cons p c s :
  re_search p (c :: s) = None ->
  re_match p (c :: s) = None /\ re_search p s = None.
Proof. simpl. destruct (re_match p (c :: s)); done. Qed.

Lemma re_search_None_nil p : re_search p [] = None -> re_match p [] = None.
Proof. simpl. destruct (re_match p []); done. Qed.

Lemma re_search_None_app p a s :
  re_search p (a ++ s) = None -> re_search p s = None.
Proof.
  induction a as [|c a IH]; [done|].
  intros [_ H]%re_search_None_cons. auto.
Qed.

Lemma scan_skip p a r : scan p (a ++ r) (length a) = scan p r 0.
Proof. induction a as [|c a IH]; simpl; [done | apply IH]. Qed.

Lemma scan_None p s : re_search p s = None -> scan p s 0 = map Keep s.
Proof.
  induction s as [|c s IH].
  - intros H%re_search_None_nil. simpl. by rewrite H.
  - intros [Hm Hs]%re_search_None_cons. cbn [scan]. rewrite Hm. simpl.
    f_equal. auto.
Qed.

(** The leftmost match: what precedes it has no match. *)
Lemma re_search_Some p s m :
  re_search p s = Some m ->
  exists pre s1, s = pre ++ s1 /\ re_match p s1 = Some m /\
    scan p s 0 = map Keep pre ++ scan p s1 0.
Proof.
  induction s as [|c s IH]; cbn [re_search].
  - destruct (re_match p []) eqn:E; [|done]. intros [= ->].
    exists [], []. by split_and!.
  - destruct (re_match p (c :: s)) eqn:E.
    + intros [= ->]. exists [], (c :: s). by split_and!.
    + intros (pre & s1 & -> & Hm & Hscan)%IH.
      exists (c :: pre), s1. split_and!; [done | done |].
      change ((c :: pre) ++ s1) with (c :: (pre ++ s1)).
      cbn [scan]. rewrite E, Hscan. done.
Qed.

Section RenderFacts.
Context {St : Type}.
Variable repl : rmatch -> St -> text * St.

Lemma render_app ps1 ps2 st :
  render repl (ps1 ++ ps2) st
  = let '(o1, st1) := render repl ps1 st in
    let '(o2, st2) := render repl ps2 st1 in
    (o1 ++ o2, st2).
Proof.
  revert st. induction ps1 as [|[c|m] ps1 IH]; intros st; simpl.
  - by destruct (render repl ps2 st).
  - rewrite IH. destruct (render repl ps1 st) as [o1 st1].
    by destruct (render repl ps2 st1).
  - destruct (repl m st) as [r st0]. rewrite IH.
    destruct (render repl ps1 st0) as [o1 st1].
    destruct (render repl ps2 st1). by rewrite <- app_assoc.
Qed.

Lemma render_keep s st : render repl (map Keep s) st = (s, st).
Proof. induction s as [|c s IH]; simpl; [done | by rewrite IH]. Qed.

(** Without a match [re.sub] returns its input and calls nothing. *)
Lemma re_sub_None p s st :
  re_search p s = None -> re_sub p repl s st = (s, st).
Proof. intros H. unfold re_sub. rewrite scan_None by done. apply render_keep. Qed.

(** With a match, the text before the leftmost match is copied and
    the callback's text for that match follows. *)
Lemma re_sub_Some p s st m :
  re_search p s = Some m ->
  exists pre s1 out,
    s = pre ++ s1 /\ re_match p s1 = Some m /\
    fst (re_sub p repl s st) = pre ++ fst (repl m st) ++ out.
Proof.
  intros (pre & s1 & -> & Hm & Hscan)%re_search_Some.
  exists pre, s1. unfold re_sub. rewrite Hscan, render_app, render_keep.
  assert (exists ps, scan p s1 0 = Hit m :: ps) as [ps ->].
  { destruct s1 as [|c s1]; cbn [scan]; rewrite Hm; [eauto|].
    destruct (mlen m); eauto. }
  cbn [render]. destruct (repl m st) as [r st1].
  destruct (render repl ps st1) as [out st2]. exists out. by split_and!.
Qed.
End RenderFacts.

(** ** The write-back decision *)

Lemma text_eqb_eq a b : text_eqb a b = true <-> a = b.
Proof. unfold text_eqb. apply bool_decide_eq_true. Qed.

Lemma text_eqb_neq a b : text_eqb a b = false <-> a <> b.
Proof. unfold text_eqb. apply bool_decide_eq_false. Qed.

(** What the four drivers do after the text has been transformed. *)
Ltac run_driver Hfile Hcmp :=
  unfold bind, read_file; rewrite Hfile; cbv beta iota zeta; rewrite Hcmp;
  cbv beta iota delta [negb bind write_file print ret files console];
  reflexivity.

Module FixTestMigrationFacts.
Import FixTestMigration.

Lemma fix_test_file_changed file_path w content :
  files w !! file_path = Some content ->
  migrate content <> content ->
  fix_test_file file_path w
  = Some (true, World (<[file_path := migrate content]> (files w))
                      (console w ++ ["Fixed " +:+ file_path])).
Proof.
  intros Hfile Hne%text_eqb_neq. unfold fix_test_file.
  run_driver Hfile Hne.
Qed.

Lemma fix_test_file_unchanged file_path w content :
  files w !! file_path = Some content ->
  migrate content = content ->
  fix_test_file file_path w
  = Some (false, World (files w)
                       (console w ++ ["No changes needed for " +:+ file_path])).
Proof.
  intros Hfile Heq%text_eqb_eq. unfold fix_test_file.
  run_driver Hfile Heq.
Qed.

Lemma fix_test_file_missing file_path w :
  files w !! file_path = None -> fix_test_file file_path w = None.
Proof.
  intros Hfile. unfold fix_test_file, bind, read_file. by rewrite Hfile.
Qed.

Lemma re_match_import s :
  re_match import_pattern s
  = if starts_with anchor s then Some anchor_match else None.
Proof.
  unfold re_match, import_pattern. cbn [match_items].
  rewrite <- (app_nil_r (map Chr anchor)), match_atoms_chars.
  destruct (starts_with anchor s) eqn:E; [|done].
  apply starts_with_spec in E as [r ->]. cbn [match_atoms app].
  rewrite drop_app_length, length_app, Nat.add_sub, take_app_length.
  done.
Qed.

Lemma re_search_import s :
  re_search import_pattern s
  = if contains anchor s then Some anchor_match else None.
Proof.
  induction s as [|c s IH]; cbn [re_search contains];
    rewrite re_match_import; destruct (starts_with anchor _); done.
Qed.

Lemma add_imports_eq content :
  add_imports content
  = if contains marker content then content
    else if contains anchor content
         then replace_from anchor (anchor ++ added_imports) content 0
         else content.
Proof.
  unfold add_imports. rewrite re_search_import.
  destruct (contains marker content); [done|].
  destruct (contains anchor content); done.
Qed.

(** The loop of [main] never raises: a file is read only after
    [os.path.exists] has found it.  It creates and removes no file. *)
Lemma fix_test_file_files file_path w b w' p :
  fix_test_file file_path w = Some (b, w') ->
  files w' !! p = None <-> files w !! p = None.
Proof.
  destruct (files w !! file_path) as [content|] eqn:Hfile.
  - destruct (decide (migrate content = content)) as [Heq|Hne].
    + rewrite (fix_test_file_unchanged _ _ _ Hfile Heq). by intros [= <- <-].
    + rewrite (fix_test_file_changed _ _ _ Hfile Hne). intros [= <- <-]. simpl.
      destruct (decide (file_path = p)) as [<-|Hp].
      * rewrite lookup_insert_eq, Hfile. done.
      * by rewrite lookup_insert_ne.
  - by rewrite fix_test_file_missing.
Qed.

(** One round of the loop of [main]. *)
Lemma for_each_cons file_path rest total w :
  for_each (file_path :: rest) total w
  = match files w !! file_path with
    | Some _ =>
        match fix_test_file file_path w with
        | Some (fixed, w1) =>
            for_each rest (if fixed then total + 1 else total) w1
        | None => None
        end
    | None =>
        for_each rest total
          (World (files w) (console w ++ ["File not found: " +:+ file_path]))
    end.
Proof.
  cbn [for_each]. unfold bind at 1. unfold path_exists.
  destruct (files w !! file_path) as [content|] eqn:Hfile.
  - rewrite bool_decide_eq_true_2 by eauto. unfold bind at 1.
    destruct (fix_test_file file_path w) as [[[] w1]|]; done.
  - rewrite bool_decide_eq_false_2 by (intros [? ?]; done). done.
Qed.

Lemma for_each_total paths total w :
  exists total' w', for_each paths total w = Some (total', w').
Proof.
  revert total w. induction paths as [|p paths IH]; intros total w.
  - by eexists _, _.
  - rewrite for_each_cons.
    destruct (files w !! p) as [content|] eqn:Hfile; [|apply IH].
    destruct (decide (migrate content = content)) as [Heq|Hne].
    + rewrite (fix_test_file_unchanged _ _ _ Hfile Heq). apply IH.
    + rewrite (fix_test_file_changed _ _ _ Hfile Hne). apply IH.
Qed.

Lemma for_each_files paths total w total' w' p :
  for_each paths total w = Some (total', w') ->
  files w' !! p = None <-> files w !! p = None.
Proof.
  revert total w. induction paths as [|q paths IH]; intros total w.
  - by intros [= <- <-].
  - rewrite for_each_cons.
    destruct (files w !! q) as [content|] eqn:Hfile.
    + destruct (fix_test_file q w) as [[b w1]|] eqn:Hfix; [|done].
      pose proof (fix_test_file_files _ _ _ _ p Hfix) as Hw1.
      intros ->%IH. done.
    + by intros ->%IH.
Qed.

Lemma for_each_app before after total w :
  for_each (before ++ after) total w
  = match for_each before total w with
    | Some (total1, w1) => for_each after total1 w1
    | None => None
    end.
Proof.
  revert total w. induction before as [|q before IH]; intros total w; [done|].
  change ((q :: before) ++ after) with (q :: (before ++ after)).
  rewrite !for_each_cons.
  destruct (files w !! q); [|apply IH].
  destruct (fix_test_file q w) as [[b w1]|]; [apply IH | done].
Qed.

Lemma for_each_missing file_path after total w :
  files w !! file_path = None ->
  for_each (file_path :: after) total w
  = for_each after total
      (World (files w) (console w ++ ["File not found: " +:+ file_path])).
Proof. intros Hfile. by rewrite for_each_cons, Hfile. Qed.
End FixTestMigrationFacts.

Module FixRemainingFacts.
Import FixRemaining.

Lemma fix_single_thread_engine_test_changed w content :
  files w !! single_thread_engine_test_path = Some content ->
  migrate content <> content ->
  fix_single_thread_engine_test w
  = Some (tt, World (<[single_thread_engine_test_path := migrate content]> (files w))
                    (console w ++ ["Fixed " +:+ single_thread_engine_test_path])).
Proof.
  intros Hfile Hne%text_eqb_neq. unfold fix_single_thread_engine_test.
  run_driver Hfile Hne.
Qed.

Lemma fix_single_thread_engine_test_unchanged w content :
  files w !! single_thread_engine_test_path = Some content ->
  migrate content = content ->
  fix_single_thread_engine_test w
  = Some (tt, World (files w)
                    (console w ++ ["No changes needed for " +:+ single_thread_engine_test_path])).
Proof.
  intros Hfile Heq%text_eqb_eq. unfold fix_single_thread_engine_test.
  run_driver Hfile Heq.
Qed.

Lemma fix_floor_operation_test_changed w content :
  files w !! floor_operation_test_path = Some content ->
  migrate_floor content <> content ->
  fix_floor_operation_test w
  = Some (tt, World (<[floor_operation_test_path := migrate_floor content]> (files w))
                    (console w ++ ["Fixed " +:+ floor_operation_test_path])).
Proof.
  intros Hfile Hne%text_eqb_neq. unfold fix_floor_operation_test.
  run_driver Hfile Hne.
Qed.

Lemma fix_floor_operation_test_unchanged w content :
  files w !! floor_operation_test_path = Some content ->
  migrate_floor content = content ->
  fix_floor_operation_test w
  = Some (tt, World (files w)
                    (console w ++ ["No changes needed for " +:+ floor_operation_test_path])).
Proof.
  intros Hfile Heq%text_eqb_eq. unfold fix_floor_operation_test.
  run_driver Hfile Heq.
Qed.
End FixRemainingFacts.

Module FixSetExecutorFacts.
Import FixSetExecutor.

Lemma fix_set_executor_test_changed w content :
  files w !! file_path = Some content ->
  migrate content <> content ->
  fix_set_executor_test w
  = Some (tt, World (<[file_path := migrate content]> (files w))
                    (console w ++ ["Fixed " +:+ file_path])).
Proof.
  intros Hfile Hne%text_eqb_neq. unfold fix_set_executor_test.
  run_driver Hfile Hne.
Qed.

Lemma fix_set_executor_test_unchanged w content :
  files w !! file_path = Some content ->
  migrate content = content ->
  fix_set_executor_test w
  = Some (tt, World (files w)
                    (console w ++ ["No changes needed for " +:+ file_path])).
Proof.
  intros Hfile Heq%text_eqb_eq. unfold fix_set_executor_test.
  run_driver Hfile Heq.
Qed.
End FixSetExecutorFacts.

(** * The claims *)

(** C4.  The driver writes the file back exactly when the migrated text
    differs from the text it read.  [fix_test_file] then prints
    "Fixed <path>" and returns [True]; otherwise the file system is left
    as it was, "No changes needed for <path>" is printed and the result
    is [False].  [fix_set_executor_test] takes the same decision. *)
Theorem write_back_iff_changed (file_path : string) (w : world) (content : text)
    (w2 : world) (content2 : text) :
  files w !! file_path = Some content ->
  files w2 !! FixSetExecutor.file_path = Some content2 ->
  (exists fixed w',
     FixTestMigration.fix_test_file file_path w = Some (fixed, w') /\
     (fixed = true <-> FixTestMigration.migrate content <> content) /\
     (fixed = true ->
        files w' = <[file_path := FixTestMigration.migrate content]> (files w) /\
        console w' = console w ++ ["Fixed " +:+ file_path]) /\
     (fixed = false ->
        files w' = files w /\
        console w' = console w ++ ["No changes needed for " +:+ file_path])) /\
  (exists w',
     FixSetExecutor.fix_set_executor_test w2 = Some (tt, w') /\
     (FixSetExecutor.migrate content2 <> content2 ->
        files w' = <[FixSetExecutor.file_path := FixSetExecutor.migrate content2]> (files w2) /\
        console w' = console w2 ++ ["Fixed " +:+ FixSetExecutor.file_path]) /\
     (FixSetExecutor.migrate content2 = content2 ->
        files w' = files w2 /\
        console w' = console w2 ++ ["No changes needed for " +:+ FixSetExecutor.file_path])).
Proof.
  intros Hfile Hfile2. split.
  - destruct (decide (FixTestMigration.migrate content = content)) as [Heq|Hne].
    + eexists false, _. split.
      { by apply (FixTestMigrationFacts.fix_test_file_unchanged _ _ content). }
      simpl. split_and!; [split; [done | intros Hne; by destruct Hne] | done | done].
    + eexists true, _. split.
      { by apply (FixTestMigrationFacts.fix_test_file_changed _ _ content). }
      simpl. split_and!; [done | done | done].
  - destruct (decide (FixSetExecutor.migrate content2 = content2)) as [Heq|Hne].
    + eexists. split.
      { by apply (FixSetExecutorFacts.fix_set_executor_test_unchanged _ content2). }
      simpl. split; [intros Hne; by destruct Hne | done].
    + eexists. split.
      { by apply (FixSetExecutorFacts.fix_set_executor_test_changed _ content2). }
      simpl. split; [done | intros Heq; by destruct Hne].
Qed.

(** C9.  A path of the list of [main] that does not exist is reported
    with "File not found: <path>" and skipped: the paths before it are
    processed, the missing one changes neither the files nor the count,
    the paths after it are processed in order, and the run ends with the
    total line. *)
Theorem missing_file_is_skipped (before after : list string)
    (file_path : string) (w : world) :
  FixTestMigration.test_files = before ++ file_path :: after ->
  files w !! file_path = None ->
  exists total1 w1 total2 w2,
    FixTestMigration.for_each before 0 w = Some (total1, w1) /\
    files w1 !! file_path = None /\
    FixTestMigration.for_each (file_path :: after) total1 w1
    = FixTestMigration.for_each after total1
        (World (files w1) (console w1 ++ ["File not found: " +:+ file_path])) /\
    FixTestMigration.for_each after total1
        (World (files w1) (console w1 ++ ["File not found: " +:+ file_path]))
    = Some (total2, w2) /\
    files w2 !! file_path = None /\
    FixTestMigration.main w
    = Some (tt, World (files w2)
                  (console w2 ++ [String newline "Total files fixed: " +:+ decimal total2])).
Proof.
  intros Hlist Hfile.
  destruct (FixTestMigrationFacts.for_each_total before 0 w) as (total1 & w1 & Hbefore).
  assert (files w1 !! file_path = None) as Hfile1.
  { by apply (FixTestMigrationFacts.for_each_files _ _ _ _ _ file_path Hbefore). }
  destruct (FixTestMigrationFacts.for_each_total after total1
    (World (files w1) (console w1 ++ ["File not found: " +:+ file_path])))
    as (total2 & w2 & Hafter).
  exists total1, w1, total2, w2. split_and!; [done | done | | done | |].
  - by apply FixTestMigrationFacts.for_each_missing.
  - by apply (FixTestMigrationFacts.for_each_files _ _ _ _ _ file_path Hafter).
  - unfold FixTestMigration.main, bind. rewrite Hlist.
    rewrite FixTestMigrationFacts.for_each_app, Hbefore.
    rewrite FixTestMigrationFacts.for_each_missing, Hafter by done.
    done.
Qed.

(** C10.  If the text has neither the marker [StreamUpdate] nor the
    anchor import, the import step inserts nothing and raises nothing:
    the migrated text is the outcome of the call-site substitution on the
    text as it was read, and the driver returns. *)
Theorem no_anchor_no_imports (content : text) (file_path : string) (w : world) :
  contains FixTestMigration.marker content = false ->
  contains FixTestMigration.anchor content = false ->
  files w !! file_path = Some content ->
  FixTestMigration.add_imports content = content /\
  FixTestMigration.migrate content
  = fst (re_sub FixTestMigration.setstream_pattern
           FixTestMigration.replace_setstream content 1) /\
  exists fixed w', FixTestMigration.fix_test_file file_path w = Some (fixed, w').
Proof.
  intros Hmarker Hanchor Hfile.
  assert (FixTestMigration.add_imports content = content) as Himp.
  { by rewrite FixTestMigrationFacts.add_imports_eq, Hmarker, Hanchor. }
  split_and!; [done | |].
  - unfold FixTestMigration.migrate. by rewrite Himp.
  - destruct (decide (FixTestMigration.migrate content = content)) as [Heq|Hne].
    + eexists _, _. by apply (FixTestMigrationFacts.fix_test_file_unchanged _ _ content).
    + eexists _, _. by apply (FixTestMigrationFacts.fix_test_file_changed _ _ content).
Qed.

Lemma write_back_iff_changed_witness :
  let content := str "    engine.setStream(a, b, c);" in
  let content2 := str "class SetExecutorTest {}" in
  files (one_file "Sample.java" content) !! "Sample.java" = Some content /\
  files (one_file FixSetExecutor.file_path content2) !! FixSetExecutor.file_path
  = Some content2 /\
  (exists fixed w',
     FixTestMigration.fix_test_file "Sample.java" (one_file "Sample.java" content)
     = Some (fixed, w') /\
     (fixed = true <-> FixTestMigration.migrate content <> content) /\
     (fixed = true ->
        files w' = <["Sample.java" := FixTestMigration.migrate content]>
                     (files (one_file "Sample.java" content)) /\
        console w' = console (one_file "Sample.java" content) ++ ["Fixed " +:+ "Sample.java"]) /\
     (fixed = false ->
        files w' = files (one_file "Sample.java" content) /\
        console w' = console (one_file "Sample.java" content)
                     ++ ["No changes needed for " +:+ "Sample.java"])).
Proof.
  intros content content2.
  assert (files (one_file "Sample.java" content) !! "Sample.java" = Some content) as H1
    by (vm_compute; reflexivity).
  assert (files (one_file FixSetExecutor.file_path content2) !! FixSetExecutor.file_path
          = Some content2) as H2 by (vm_compute; reflexivity).
  split; [exact H1 | split; [exact H2 |]].
  exact (proj1 (write_back_iff_changed _ _ _ _ _ H1 H2)).
Defined.

Lemma missing_file_is_skipped_witness :
  exists total1 w1 total2 w2,
    FixTestMigration.for_each [] 0 (World ∅ []) = Some (total1, w1) /\
    total2 = 0 /\
    FixTestMigration.main (World ∅ [])
    = Some (tt, World (files w2)
                  (console w2 ++ [String newline "Total files fixed: " +:+ decimal total2])).
Proof.
  destruct (missing_file_is_skipped [] (tail FixTestMigration.test_files)
              (hd EmptyString FixTestMigration.test_files) (World ∅ []))
    as (total1 & w1 & total2 & w2 & H1 & _ & _ & H2 & _ & H3).
  - reflexivity.
  - vm_compute; reflexivity.
  - exists total1, w1, total2, w2. split; [exact H1|]. split; [|exact H3].
    injection H1 as <- <-. vm_compute in H2. injection H2 as <- _. reflexivity.
Defined.

Lemma no_anchor_no_imports_witness :
  let content := str "    engine.setStream(a, b, c);" in
  FixTestMigration.add_imports content = content /\
  FixTestMigration.migrate content
  = fst (re_sub FixTestMigration.setstream_pattern
           FixTestMigration.replace_setstream content 1) /\
  exists fixed w',
    FixTestMigration.fix_test_file "Sample.java" (one_file "Sample.java" content)
    = Some (fixed, w').
Proof.
  intros content.
  apply (no_anchor_no_imports content "Sample.java" (one_file "Sample.java" content));
    vm_compute; reflexivity.
Defined.

(** C3 as stated fails: a file that holds the anchor import and no call
    site at all is rewritten, the two imports being added, and the driver
    reports "Fixed". *)
Lemma import_only_file_is_rewritten :
  let content := FixTestMigration.anchor ++ nl in
  let w := one_file "Sample.java" content in
  re_search FixTestMigration.setstream_pattern content = None /\
  contains (str "engine.setStream") content = false /\
  FixTestMigration.migrate content
  = FixTestMigration.anchor ++ FixTestMigration.added_imports ++ nl /\
  FixTestMigration.migrate content <> content /\
  FixTestMigration.fix_test_file "Sample.java" w
  = Some (true, World (<["Sample.java" := FixTestMigration.migrate content]> (files w))
                  ["Fixed Sample.java"%string]).
Proof.
  intros content w.
  assert (FixTestMigration.migrate content <> content) as Hne.
  { intros H%(f_equal length). vm_compute in H. discriminate. }
  split_and!; [vm_compute; reflexivity .. | done |].
  rewrite (FixTestMigrationFacts.fix_test_file_changed "Sample.java" w content);
    [reflexivity | vm_compute; reflexivity | done].
Qed.

(** ** The replacement blocks, line by line *)

Lemma test_migration_block counter name value year_matcher :
  FixTestMigration.replacement counter name value year_matcher
  = join_lines
      [str "StreamUpdate update" ++ fmt_int counter ++ str " = new StreamUpdateBuilder()";
       str "        .setName(" ++ name ++ str ")";
       str "        .setValue(" ++ value ++ str ")";
       str "        .setYearMatcher(" ++ year_matcher ++ str ")";
       str "        .inferSubtractRecycling()";
       str "        .build();";
       str "    engine.executeStreamUpdate(update" ++ fmt_int counter ++ str ");"].
Proof.
  unfold FixTestMigration.replacement. cbn [join_lines].
  rewrite <- !app_assoc. reflexivity.
Qed.

Lemma remaining_block indent counter name value year_matcher :
  FixRemaining.replacement indent counter name value year_matcher
  = join_lines
      [indent ++ str "StreamUpdate update" ++ fmt_int counter ++ str " = new StreamUpdateBuilder()";
       indent ++ str "    .setName(" ++ dq ++ name ++ dq ++ str ")";
       indent ++ str "    .setValue(" ++ value ++ str ")";
       indent ++ str "    .setYearMatcher(" ++ year_matcher ++ str ")";
       indent ++ str "    .inferSubtractRecycling()";
       indent ++ str "    .build();";
       indent ++ str "engine.executeStreamUpdate(update" ++ fmt_int counter ++ str ");"].
Proof.
  unfold FixRemaining.replacement. cbn [join_lines].
  rewrite <- !app_assoc. reflexivity.
Qed.

(** C7, as the code has it.  At a matched call site the text is
    [engine.setStream(<name>,<value>,<year_matcher>);] with white space
    allowed after the commas, the three groups are these argument texts,
    and the block has them, character for character, in its [.setName],
    [.setValue] and [.setYearMatcher] lines.  The two closures of
    fix_remaining_setstream.py capture the name without its quotes and
    put the quotes back.  Conversely a text of this shape, in which the
    value and the year matcher do not begin with white space, is matched
    with its arguments as the groups: the white space directly after a
    comma is left out, any other white space of an argument is kept. *)
Theorem arguments_are_copied_verbatim (s1 s2 s3 : text) (m1 m2 m3 : rmatch)
    (counter : nat) (indent name w1 value w2 w3 year_matcher rest : text) :
  re_match FixTestMigration.setstream_pattern s1 = Some m1 ->
  re_match FixRemaining.pattern s2 = Some m2 ->
  re_match FixRemaining.multiline_pattern s3 = Some m3 ->
  (exists name w1 value w2 year_matcher rest,
     s1 = str "engine.setStream(" ++ name ++ str "," ++ w1 ++ value ++
          str "," ++ w2 ++ year_matcher ++ str ");" ++ rest /\
     blank w1 /\ blank w2 /\
     fst (FixTestMigration.replace_setstream m1 counter)
     = join_lines
         [str "StreamUpdate update" ++ fmt_int counter ++ str " = new StreamUpdateBuilder()";
          str "        .setName(" ++ name ++ str ")";
          str "        .setValue(" ++ value ++ str ")";
          str "        .setYearMatcher(" ++ year_matcher ++ str ")";
          str "        .inferSubtractRecycling()";
          str "        .build();";
          str "    engine.executeStreamUpdate(update" ++ fmt_int counter ++ str ");"]) /\
  (exists indent name w1 value w2 year_matcher rest,
     s2 = indent ++ str "engine.setStream(" ++ dq ++ name ++ dq ++ str "," ++ w1 ++
          value ++ str "," ++ w2 ++ year_matcher ++ str ");" ++ rest /\
     blank w1 /\ blank w2 /\
     fst (FixRemaining.replace_setstream m2 counter)
     = join_lines
         [indent ++ str "StreamUpdate update" ++ fmt_int counter ++ str " = new StreamUpdateBuilder()";
          indent ++ str "    .setName(" ++ dq ++ name ++ dq ++ str ")";
          indent ++ str "    .setValue(" ++ value ++ str ")";
          indent ++ str "    .setYearMatcher(" ++ year_matcher ++ str ")";
          indent ++ str "    .inferSubtractRecycling()";
          indent ++ str "    .build();";
          indent ++ str "engine.executeStreamUpdate(update" ++ fmt_int counter ++ str ");"]) /\
  (exists indent name w1 value w2 year_matcher rest,
     s3 = indent ++ str "engine.setStream(" ++ dq ++ name ++ dq ++ str "," ++ w1 ++
          value ++ str "," ++ w2 ++ year_matcher ++ str ");" ++ rest /\
     blank w1 /\ blank w2 /\
     fst (FixRemaining.replace_multiline_setstream m3 counter)
     = join_lines
         [indent ++ str "StreamUpdate update" ++ fmt_int counter ++ str " = new StreamUpdateBuilder()";
          indent ++ str "    .setName(" ++ dq ++ name ++ dq ++ str ")";
          indent ++ str "    .setValue(" ++ value ++ str ")";
          indent ++ str "    .setYearMatcher(" ++ year_matcher ++ str ")";
          indent ++ str "    .inferSubtractRecycling()";
          indent ++ str "    .build();";
          indent ++ str "engine.executeStreamUpdate(update" ++ fmt_int counter ++ str ");"]) /\
  (name <> [] -> free_of "," name ->
   blank w1 -> solid_start value -> free_of "," value ->
   blank w2 -> solid_start year_matcher -> free_of ")" year_matcher ->
   exists m,
     re_match FixTestMigration.setstream_pattern
       (str "engine.setStream(" ++ name ++ str "," ++ w1 ++ value ++
        str "," ++ w2 ++ year_matcher ++ str ");" ++ rest) = Some m /\
     groups m = [name; value; year_matcher]) /\
  (blank indent -> indent <> [] -> name <> [] -> free_of dquote name ->
   blank w1 -> solid_start value -> free_of "," value ->
   blank w2 -> solid_start year_matcher -> free_of ")" year_matcher ->
   exists m,
     re_match FixRemaining.pattern
       (indent ++ str "engine.setStream(" ++ dq ++ name ++ dq ++ str "," ++ w1 ++
        value ++ str "," ++ w2 ++ year_matcher ++ str ");" ++ rest) = Some m /\
     groups m = [indent; name; value; year_matcher]) /\
  (blank indent -> indent <> [] -> name <> [] -> free_of dquote name ->
   blank w1 -> solid_start value -> free_of "," value ->
   blank w2 -> blank w3 -> free_of newline w3 ->
   solid_start year_matcher -> free_of ")" year_matcher ->
   exists m,
     re_match FixRemaining.multiline_pattern
       (indent ++ str "engine.setStream(" ++ dq ++ name ++ dq ++ str "," ++ w1 ++
        value ++ str "," ++ (w2 ++ nl ++ w3) ++ year_matcher ++ str ");" ++ rest)
     = Some m /\
     groups m = [indent; name; value; year_matcher]).
Proof.
  intros (u1 & rest1 & -> & Hm1 & _)%re_match_sound
         (u2 & rest2 & -> & Hm2 & _)%re_match_sound
         (u3 & rest3 & -> & Hm3 & _)%re_match_sound.
  split_and!;
    [| | | apply CallSiteMatch.matched_test_migration
     | apply CallSiteMatch.matched_remaining
     | apply CallSiteMatch.matched_remaining_multiline].
  - apply CallSiteShape.test_migration in Hm1
      as (n & b1 & v & b2 & ym & -> & Hgs & Hb1 & Hb2 & _).
    exists n, b1, v, b2, ym, rest1. split_and!; [| done | done |].
    + by rewrite <- !app_assoc.
    + unfold FixTestMigration.replace_setstream, group. rewrite Hgs. simpl fst.
      apply test_migration_block.
  - apply CallSiteShape.remaining in Hm2
      as (i & n & b1 & v & b2 & ym & -> & Hgs & Hb1 & Hb2 & _).
    exists i, n, b1, v, b2, ym, rest2. split_and!; [| done | done |].
    + by rewrite <- !app_assoc.
    + unfold FixRemaining.replace_setstream, group. rewrite Hgs. simpl fst.
      apply remaining_block.
  - apply CallSiteShape.remaining_multiline in Hm3
      as (i & n & b1 & v & b2 & b3 & ym & -> & Hgs & Hb1 & Hb2 & _).
    exists i, n, b1, v, (b2 ++ nl ++ b3), ym, rest3.
    split_and!; [| done | done |].
    + by rewrite <- !app_assoc.
    + unfold FixRemaining.replace_multiline_setstream, group. rewrite Hgs. simpl fst.
      apply remaining_block.
Qed.

Lemma arguments_are_copied_verbatim_witness :
  exists m1 m2 m3,
    re_match FixTestMigration.setstream_pattern sample_call = Some m1 /\
    groups m1 = [str "a"; str "someValueExpr"; str "someMatcherExpr"] /\
    re_match FixRemaining.pattern sample_quoted_call = Some m2 /\
    groups m2 = [str "    "; str "domestic"; str "someValueExpr"; str "someMatcherExpr"] /\
    re_match FixRemaining.multiline_pattern sample_multiline_call = Some m3 /\
    groups m3 = [str "    "; str "domestic"; str "someValueExpr"; str "someMatcherExpr"] /\
    (exists name w1 value w2 year_matcher rest,
       sample_call
       = str "engine.setStream(" ++ name ++ str "," ++ w1 ++ value ++
         str "," ++ w2 ++ year_matcher ++ str ");" ++ rest /\
       blank w1 /\ blank w2 /\
       fst (FixTestMigration.replace_setstream m1 1)
       = join_lines
           [str "StreamUpdate update" ++ fmt_int 1 ++ str " = new StreamUpdateBuilder()";
            str "        .setName(" ++ name ++ str ")";
            str "        .setValue(" ++ value ++ str ")";
            str "        .setYearMatcher(" ++ year_matcher ++ str ")";
            str "        .inferSubtractRecycling()";
            str "        .build();";
            str "    engine.executeStreamUpdate(update" ++ fmt_int 1 ++ str ");"]) /\
    (exists m,
       re_match FixTestMigration.setstream_pattern
         (str "engine.setStream(" ++ str " a " ++ str "," ++ str "  " ++ str "b " ++
          str "," ++ str " " ++ str "c " ++ str ");" ++ str " // rest") = Some m /\
       groups m = [str " a "; str "b "; str "c "]).
Proof.
  destruct (re_match FixTestMigration.setstream_pattern sample_call) as [m1|] eqn:H1;
    [|vm_compute in H1; discriminate].
  destruct (re_match FixRemaining.pattern sample_quoted_call) as [m2|] eqn:H2;
    [|vm_compute in H2; discriminate].
  destruct (re_match FixRemaining.multiline_pattern sample_multiline_call) as [m3|] eqn:H3;
    [|vm_compute in H3; discriminate].
  exists m1, m2, m3.
  destruct (arguments_are_copied_verbatim _ _ _ _ _ _ 1
              (str "    ") (str " a ") (str "  ") (str "b ") (str " ") []
              (str "c ") (str " // rest") H1 H2 H3)
    as (Hshape & _ & _ & Hmatch & _ & _).
  split; [reflexivity|]. split; [vm_compute in H1; by injection H1 as <-|].
  split; [reflexivity|]. split; [vm_compute in H2; by injection H2 as <-|].
  split; [reflexivity|]. split; [vm_compute in H3; by injection H3 as <-|].
  split; [exact Hshape|].
  apply Hmatch;
    first [ discriminate | by_evaluation
          | (eexists _, _; split; [reflexivity | reflexivity]) ].
Defined.

(** C7 as stated fails: the arguments are not trimmed.  White space
    before the name and at the end of an argument is captured and copied
    into the block. *)
Lemma blanks_of_arguments_are_copied :
  let call := str "engine.setStream( a , b , c );" in
  exists m,
    re_match FixTestMigration.setstream_pattern call = Some m /\
    groups m = [str " a "; str "b "; str "c "] /\
    FixTestMigration.migrate call
    = join_lines
        [str "StreamUpdate update1 = new StreamUpdateBuilder()";
         str "        .setName( a )";
         str "        .setValue(b )";
         str "        .setYearMatcher(c )";
         str "        .inferSubtractRecycling()";
         str "        .build();";
         str "    engine.executeStreamUpdate(update1);"] /\
    contains (str ".setName(a)") (FixTestMigration.migrate call) = false /\
    contains (str ".setValue(b)") (FixTestMigration.migrate call) = false /\
    contains (str ".setYearMatcher(c)") (FixTestMigration.migrate call) = false.
Proof.
  intros call.
  destruct (re_match FixTestMigration.setstream_pattern call) as [m|] eqn:Hm;
    [|vm_compute in Hm; discriminate].
  exists m. vm_compute in Hm. injection Hm as <-.
  split_and!; vm_compute; reflexivity.
Qed.







(** ** The counter *)

Section Counter.
Variable repl : rmatch -> nat -> text * nat.
Hypothesis repl_increments : forall m counter, snd (repl m counter) = counter + 1.

Lemma calls_counters ps counter :
  map snd (calls repl ps counter) = seq counter (length (calls repl ps counter)).
Proof.
  revert counter. induction ps as [|[c|m] ps IH]; intros counter; simpl; [done | done |].
  rewrite IH, repl_increments. f_equal. f_equal. lia.
Qed.

Lemma render_counter ps counter :
  snd (render repl ps counter) = counter + length (calls repl ps counter).
Proof.
  revert counter. induction ps as [|[c|m] ps IH]; intros counter; simpl.
  - lia.
  - specialize (IH counter). by destruct (render repl ps counter).
  - pose proof (repl_increments m counter) as Hstep.
    destruct (repl m counter) as [r counter1]. simpl in *.
    specialize (IH counter1). destruct (render repl ps counter1). simpl in *. lia.
Qed.
End Counter.

(** The text [re.sub] returns is the list of pieces with the texts the
    callback returned, call by call. *)
Lemma render_fill {St} (repl : rmatch -> St -> text * St) ps st :
  fst (render repl ps st)
  = fill ps (map (fun call => fst (repl (fst call) (snd call))) (calls repl ps st)).
Proof.
  revert st. induction ps as [|[c|m] ps IH]; intros st; simpl; [done | |].
  - rewrite <- IH. by destruct (render repl ps st).
  - rewrite <- IH. destruct (repl m st) as [r st1]. simpl.
    by destruct (render repl ps st1).
Qed.

Lemma identifier_inj n m :
  FixTestMigration.identifier n = FixTestMigration.identifier m -> n = m.
Proof.
  unfold FixTestMigration.identifier. intros H%app_inv_head. by apply fmt_int_inj.
Qed.

Lemma NoDup_identifiers start len :
  NoDup (map FixTestMigration.identifier (seq start len)).
Proof.
  change (NoDup (FixTestMigration.identifier <$> seq start len)).
  apply NoDup_fmap_2; [|apply NoDup_seq].
  intros n m. apply identifier_inj.
Qed.

(** C5.  The identifiers given out during one run are pairwise different:
    they are [update1], [update2], ... in fix_test_migration.py and
    [update10], [update11], ... in fix_remaining_setstream.py, where the
    second [re.sub] goes on from the counter the first one left. *)
Theorem generated_identifiers_are_distinct (content : text) :
  NoDup (FixTestMigration.generated_identifiers content) /\
  FixTestMigration.generated_identifiers content
  = map FixTestMigration.identifier
      (seq 1 (length (FixTestMigration.generated_identifiers content))) /\
  NoDup (FixRemaining.generated_identifiers content) /\
  FixRemaining.generated_identifiers content
  = map FixRemaining.identifier
      (seq 10 (length (FixRemaining.generated_identifiers content))) /\
  snd (FixRemaining.migrate_counting content)
  = 10 + length (FixRemaining.generated_identifiers content).
Proof.
  assert (forall m counter,
            snd (FixTestMigration.replace_setstream m counter) = counter + 1) as Hinc0 by done.
  assert (forall m counter,
            snd (FixRemaining.replace_setstream m counter) = counter + 1) as Hinc1 by done.
  assert (forall m counter,
            snd (FixRemaining.replace_multiline_setstream m counter) = counter + 1) as Hinc2 by done.
  assert (FixTestMigration.generated_identifiers content
          = map FixTestMigration.identifier
              (seq 1 (length (FixTestMigration.generated_identifiers content)))) as H0.
  { unfold FixTestMigration.generated_identifiers.
    rewrite length_map, <- (calls_counters _ Hinc0), map_map. done. }
  assert (FixRemaining.generated_identifiers content
          = map FixRemaining.identifier
              (seq 10 (length (FixRemaining.generated_identifiers content))) /\
          snd (FixRemaining.migrate_counting content)
          = 10 + length (FixRemaining.generated_identifiers content)) as [H1 H2].
  { unfold FixRemaining.generated_identifiers, FixRemaining.migrate_counting, re_sub.
    pose proof (render_counter _ Hinc1 (scan FixRemaining.pattern content 0) 10) as Hc1.
    destruct (render FixRemaining.replace_setstream _ 10) as [content1 counter1].
    simpl in Hc1. subst counter1.
    rewrite (render_counter _ Hinc2).
    rewrite length_app, !length_map, seq_app, map_app.
    rewrite <- (calls_counters _ Hinc1), <- (calls_counters _ Hinc2), !map_map.
    split; [done | lia]. }
  split_and!; [| done | | done | done].
  - rewrite H0. apply NoDup_identifiers.
  - rewrite H1. apply NoDup_identifiers.
Qed.

(** ** The import step *)

Lemma contains_app_intro p m a b :
  contains p m = true -> contains p (a ++ m ++ b) = true.
Proof.
  intros (x & y & ->)%contains_spec. apply contains_spec.
  exists (a ++ x), (y ++ b). by rewrite <- !app_assoc.
Qed.

Lemma anchor_borderless : borderless FixTestMigration.anchor = true.
Proof. reflexivity. Qed.

(** The imports are put behind every occurrence of the anchor. *)
Lemma add_imports_each_anchor pre post :
  contains FixTestMigration.marker (pre ++ FixTestMigration.anchor ++ post) = false ->
  FixTestMigration.add_imports (pre ++ FixTestMigration.anchor ++ post)
  = replace_from FixTestMigration.anchor
      (FixTestMigration.anchor ++ FixTestMigration.added_imports) pre 0 ++
    FixTestMigration.anchor ++ FixTestMigration.added_imports ++
    replace_from FixTestMigration.anchor
      (FixTestMigration.anchor ++ FixTestMigration.added_imports) post 0.
Proof.
  intros Hmarker. rewrite FixTestMigrationFacts.add_imports_eq, Hmarker.
  rewrite (contains_app_intro _ FixTestMigration.anchor pre post).
  2:{ apply contains_spec. exists [], []. by rewrite app_nil_r. }
  rewrite replace_from_split by (apply anchor_borderless || discriminate || lia).
  by rewrite <- !app_assoc.
Qed.

(** After the import step has added something, the marker is there. *)
Lemma add_imports_marker content :
  FixTestMigration.add_imports content = content \/
  contains FixTestMigration.marker (FixTestMigration.add_imports content) = true.
Proof.
  destruct (contains FixTestMigration.marker content) eqn:Hmarker.
  { left. by rewrite FixTestMigrationFacts.add_imports_eq, Hmarker. }
  destruct (contains FixTestMigration.anchor content) eqn:Hanchor.
  2:{ left. by rewrite FixTestMigrationFacts.add_imports_eq, Hmarker, Hanchor. }
  right. apply contains_spec in Hanchor as (pre & post & ->).
  rewrite (add_imports_each_anchor pre post Hmarker).
  rewrite (app_assoc _ FixTestMigration.anchor).
  apply (contains_app_intro _ FixTestMigration.added_imports). reflexivity.
Qed.

Lemma add_imports_idem content :
  FixTestMigration.add_imports (FixTestMigration.add_imports content)
  = FixTestMigration.add_imports content.
Proof.
  destruct (add_imports_marker content) as [Hsame | Hmarker]; [by rewrite !Hsame|].
  by rewrite (FixTestMigrationFacts.add_imports_eq (FixTestMigration.add_imports content)), Hmarker.
Qed.

(** The import step has nothing to add to a migrated text. *)
Lemma add_imports_migrate content :
  FixTestMigration.add_imports (FixTestMigration.migrate content)
  = FixTestMigration.migrate content.
Proof.
  unfold FixTestMigration.migrate.
  destruct (re_search FixTestMigration.setstream_pattern
              (FixTestMigration.add_imports content)) as [m|] eqn:Hsearch.
  - apply (re_sub_Some FixTestMigration.replace_setstream _ _ 1) in Hsearch
      as (pre & s1 & out & _ & _ & ->).
    rewrite FixTestMigrationFacts.add_imports_eq.
    rewrite (contains_app_intro _ (fst (FixTestMigration.replace_setstream m 1)) pre out);
      [done|].
    apply contains_spec. exists []. eexists. reflexivity.
  - rewrite re_sub_None by done. apply add_imports_idem.
Qed.

(** C6, as the code has it.  In a text without the marker in which the
    anchor import occurs once, the two import lines are inserted once,
    right behind the anchor, which stays as it is; the call-site
    substitution then works on that text.  A text that has the marker
    anywhere goes through the import step unchanged.  (With several
    occurrences of the anchor the lines are inserted behind each.) *)
Theorem imports_follow_the_anchor (pre post content : text) :
  contains FixTestMigration.marker (pre ++ FixTestMigration.anchor ++ post) = false ->
  contains FixTestMigration.anchor pre = false ->
  contains FixTestMigration.anchor post = false ->
  contains FixTestMigration.marker content = true ->
  FixTestMigration.add_imports (pre ++ FixTestMigration.anchor ++ post)
  = pre ++ FixTestMigration.anchor ++
    (nl ++ str "import org.kigalisim.engine.support.StreamUpdate;" ++
     nl ++ str "import org.kigalisim.engine.support.StreamUpdateBuilder;") ++ post /\
  FixTestMigration.migrate (pre ++ FixTestMigration.anchor ++ post)
  = fst (re_sub FixTestMigration.setstream_pattern FixTestMigration.replace_setstream
           (pre ++ FixTestMigration.anchor ++ FixTestMigration.added_imports ++ post) 1) /\
  FixTestMigration.add_imports content = content.
Proof.
  intros Hmarker Hpre Hpost Hcontent.
  assert (FixTestMigration.add_imports (pre ++ FixTestMigration.anchor ++ post)
          = pre ++ FixTestMigration.anchor ++ FixTestMigration.added_imports ++ post) as Hadd.
  { rewrite add_imports_each_anchor by done. by rewrite !replace_from_absent. }
  split_and!.
  - exact Hadd.
  - unfold FixTestMigration.migrate. by rewrite Hadd.
  - by rewrite FixTestMigrationFacts.add_imports_eq, Hcontent.
Qed.

Lemma imports_follow_the_anchor_witness :
  FixTestMigration.add_imports (sample_header ++ FixTestMigration.anchor ++ sample_body)
  = sample_header ++ FixTestMigration.anchor ++
    (nl ++ str "import org.kigalisim.engine.support.StreamUpdate;" ++
     nl ++ str "import org.kigalisim.engine.support.StreamUpdateBuilder;") ++ sample_body.
Proof.
  refine (proj1 (imports_follow_the_anchor sample_header sample_body
                   (str "StreamUpdate u;") _ _ _ _)); reflexivity.
Defined.

(** C6 as stated fails: where the anchor text occurs twice the import
    lines are inserted twice, once behind each occurrence. *)
Lemma repeated_anchor_gets_the_imports_twice :
  let content := FixTestMigration.anchor ++ nl ++ FixTestMigration.anchor ++ nl in
  contains FixTestMigration.marker content = false /\
  contains FixTestMigration.anchor content = true /\
  FixTestMigration.add_imports content
  = FixTestMigration.anchor ++ FixTestMigration.added_imports ++ nl ++
    FixTestMigration.anchor ++ FixTestMigration.added_imports ++ nl /\
  ~ exists pre post,
      content = pre ++ FixTestMigration.anchor ++ post /\
      FixTestMigration.add_imports content
      = pre ++ FixTestMigration.anchor ++ FixTestMigration.added_imports ++ post.
Proof.
  intros content. split_and!; [reflexivity.. |].
  intros (pre & post & H1 & H2).
  apply (f_equal length) in H1, H2.
  rewrite !length_app in H1. rewrite !length_app in H2.
  assert (length (FixTestMigration.add_imports content)
          = length content + 2 * length FixTestMigration.added_imports) as Hlen
    by reflexivity.
  assert (0 < length FixTestMigration.added_imports) as Hpos
    by (apply Nat.ltb_lt; reflexivity).
  lia.
Qed.

(** ** Running the migration again *)

(** A migrated text in which no call site is found is left as it is. *)
Lemma test_migration_migrate_again content :
  re_search FixTestMigration.setstream_pattern (FixTestMigration.migrate content) = None ->
  FixTestMigration.migrate (FixTestMigration.migrate content)
  = FixTestMigration.migrate content.
Proof.
  intros Hnone. unfold FixTestMigration.migrate at 1.
  by rewrite add_imports_migrate, re_sub_None.
Qed.

Lemma fix_remaining_migrate_again content :
  re_search FixRemaining.pattern (FixRemaining.migrate content) = None ->
  re_search FixRemaining.multiline_pattern (FixRemaining.migrate content) = None ->
  FixRemaining.migrate (FixRemaining.migrate content) = FixRemaining.migrate content.
Proof.
  intros H1 H2. generalize dependent (FixRemaining.migrate content). intros once H1 H2.
  unfold FixRemaining.migrate, FixRemaining.migrate_counting.
  rewrite (re_sub_None _ _ _ _ H1), (re_sub_None _ _ _ _ H2). done.
Qed.

(** Two runs of a driver, one after the other, when the transformation
    gives back the text of the first run. *)
Lemma fix_test_file_again file_path w content :
  files w !! file_path = Some content ->
  FixTestMigration.migrate (FixTestMigration.migrate content)
  = FixTestMigration.migrate content ->
  exists fixed w1,
    FixTestMigration.fix_test_file file_path w = Some (fixed, w1) /\
    files w1 !! file_path = Some (FixTestMigration.migrate content) /\
    FixTestMigration.fix_test_file file_path w1
    = Some (false, World (files w1)
                     (console w1 ++ ["No changes needed for " +:+ file_path])).
Proof.
  intros Hfile Hagain.
  destruct (decide (FixTestMigration.migrate content = content)) as [Heq|Hne].
  - eexists false, _. split.
    { by apply (FixTestMigrationFacts.fix_test_file_unchanged _ _ content). }
    split; [simpl; by rewrite Heq|].
    rewrite (FixTestMigrationFacts.fix_test_file_unchanged file_path _ content);
      [reflexivity | done | done].
  - eexists true, _. split.
    { by apply (FixTestMigrationFacts.fix_test_file_changed _ _ content). }
    split; [simpl; by rewrite lookup_insert_eq|].
    rewrite (FixTestMigrationFacts.fix_test_file_unchanged file_path _
               (FixTestMigration.migrate content));
      [reflexivity | simpl; by rewrite lookup_insert_eq | done].
Qed.

Lemma fix_single_thread_engine_test_again w content :
  files w !! FixRemaining.single_thread_engine_test_path = Some content ->
  FixRemaining.migrate (FixRemaining.migrate content) = FixRemaining.migrate content ->
  exists w1,
    FixRemaining.fix_single_thread_engine_test w = Some (tt, w1) /\
    files w1 !! FixRemaining.single_thread_engine_test_path
    = Some (FixRemaining.migrate content) /\
    FixRemaining.fix_single_thread_engine_test w1
    = Some (tt, World (files w1)
                  (console w1 ++ ["No changes needed for " +:+
                                  FixRemaining.single_thread_engine_test_path])).
Proof.
  intros Hfile Hagain.
  destruct (decide (FixRemaining.migrate content = content)) as [Heq|Hne].
  - eexists. split.
    { by apply (FixRemainingFacts.fix_single_thread_engine_test_unchanged _ content). }
    split; [simpl; by rewrite Heq|].
    rewrite (FixRemainingFacts.fix_single_thread_engine_test_unchanged _ content);
      [reflexivity | done | done].
  - eexists. split.
    { by apply (FixRemainingFacts.fix_single_thread_engine_test_changed _ content). }
    split; [simpl; by rewrite lookup_insert_eq|].
    rewrite (FixRemainingFacts.fix_single_thread_engine_test_unchanged _
               (FixRemaining.migrate content));
      [reflexivity | simpl; by rewrite lookup_insert_eq | done].
Qed.

Lemma fix_floor_operation_test_again w content :
  files w !! FixRemaining.floor_operation_test_path = Some content ->
  FixRemaining.migrate_floor (FixRemaining.migrate_floor content)
  = FixRemaining.migrate_floor content ->
  exists w1,
    FixRemaining.fix_floor_operation_test w = Some (tt, w1) /\
    files w1 !! FixRemaining.floor_operation_test_path
    = Some (FixRemaining.migrate_floor content) /\
    FixRemaining.fix_floor_operation_test w1
    = Some (tt, World (files w1)
                  (console w1 ++ ["No changes needed for " +:+
                                  FixRemaining.floor_operation_test_path])).
Proof.
  intros Hfile Hagain.
  destruct (decide (FixRemaining.migrate_floor content = content)) as [Heq|Hne].
  - eexists. split.
    { by apply (FixRemainingFacts.fix_floor_operation_test_unchanged _ content). }
    split; [simpl; by rewrite Heq|].
    rewrite (FixRemainingFacts.fix_floor_operation_test_unchanged _ content);
      [reflexivity | done | done].
  - eexists. split.
    { by apply (FixRemainingFacts.fix_floor_operation_test_changed _ content). }
    split; [simpl; by rewrite lookup_insert_eq|].
    rewrite (FixRemainingFacts.fix_floor_operation_test_unchanged _
               (FixRemaining.migrate_floor content));
      [reflexivity | simpl; by rewrite lookup_insert_eq | done].
Qed.


(** ** A file without call sites *)

Lemma add_imports_adds_marker content :
  contains FixTestMigration.marker content = false ->
  contains FixTestMigration.anchor content = true ->
  contains FixTestMigration.marker (FixTestMigration.add_imports content) = true.
Proof.
  intros Hmarker (pre & post & ->)%contains_spec.
  rewrite (add_imports_each_anchor pre post Hmarker).
  rewrite (app_assoc _ FixTestMigration.anchor).
  apply (contains_app_intro _ FixTestMigration.added_imports). reflexivity.
Qed.

(** The marker stays: a block begins with it. *)
Lemma migrate_keeps_marker content :
  contains FixTestMigration.marker (FixTestMigration.add_imports content) = true ->
  contains FixTestMigration.marker (FixTestMigration.migrate content) = true.
Proof.
  intros Hmarker. unfold FixTestMigration.migrate.
  destruct (re_search FixTestMigration.setstream_pattern
              (FixTestMigration.add_imports content)) as [m|] eqn:Hsearch.
  - apply (re_sub_Some FixTestMigration.replace_setstream _ _ 1) in Hsearch
      as (pre & s1 & out & _ & _ & ->).
    apply contains_app_intro, contains_spec. exists []. eexists. reflexivity.
  - by rewrite re_sub_None.
Qed.

(** C3, as the code has it.  A text without a match of the call pattern
    is left as it is, nothing is written and "No changes needed" is
    reported, provided the import step has nothing to do: the text
    already mentions [StreamUpdate], or it lacks the anchor import.  If
    it lacks [StreamUpdate] and has the anchor import, the migrated text
    mentions [StreamUpdate] and so differs from the text read: it is
    written back, "Fixed" is reported and the result is [True]. *)
Theorem no_call_site_no_change (file_path : string) (w : world) (content : text) :
  files w !! file_path = Some content ->
  re_search FixTestMigration.setstream_pattern content = None ->
  (contains FixTestMigration.marker content = true \/
   contains FixTestMigration.anchor content = false ->
   FixTestMigration.migrate content = content /\
   FixTestMigration.fix_test_file file_path w
   = Some (false, World (files w)
                    (console w ++ ["No changes needed for " +:+ file_path]))) /\
  (contains FixTestMigration.marker content = false ->
   contains FixTestMigration.anchor content = true ->
   contains FixTestMigration.marker (FixTestMigration.migrate content) = true /\
   FixTestMigration.migrate content <> content /\
   FixTestMigration.fix_test_file file_path w
   = Some (true, World (<[file_path := FixTestMigration.migrate content]> (files w))
                   (console w ++ ["Fixed " +:+ file_path]))).
Proof.
  intros Hfile Hnone. split.
  - intros Himp.
    assert (FixTestMigration.add_imports content = content) as Hadd.
    { rewrite FixTestMigrationFacts.add_imports_eq.
      destruct Himp as [-> | ->]; [done|].
      by destruct (contains _ _). }
    assert (FixTestMigration.migrate content = content) as Hsame.
    { unfold FixTestMigration.migrate. by rewrite Hadd, re_sub_None. }
    split; [done|].
    by apply (FixTestMigrationFacts.fix_test_file_unchanged _ _ content).
  - intros Hmarker Hanchor.
    assert (contains FixTestMigration.marker (FixTestMigration.migrate content) = true)
      as Hnow by (by apply migrate_keeps_marker, add_imports_adds_marker).
    assert (FixTestMigration.migrate content <> content) as Hne.
    { intros Heq. rewrite Heq in Hnow. congruence. }
    split_and!; [done | done |].
    by apply (FixTestMigrationFacts.fix_test_file_changed _ _ content).
Qed.

Lemma no_call_site_no_change_witness :
  let content := str "class ChangeOperationTest {}" in
  let content' := FixTestMigration.anchor ++ nl ++ str "class ChangeOperationTest {}" in
  (FixTestMigration.migrate content = content /\
   FixTestMigration.fix_test_file "Sample.java" (one_file "Sample.java" content)
   = Some (false, World (files (one_file "Sample.java" content))
                    (console (one_file "Sample.java" content)
                     ++ ["No changes needed for " +:+ "Sample.java"]))) /\
  (contains FixTestMigration.marker (FixTestMigration.migrate content') = true /\
   FixTestMigration.migrate content' <> content' /\
   FixTestMigration.fix_test_file "Sample.java" (one_file "Sample.java" content')
   = Some (true, World (<["Sample.java" := FixTestMigration.migrate content']>
                          (files (one_file "Sample.java" content')))
                   (console (one_file "Sample.java" content')
                    ++ ["Fixed " +:+ "Sample.java"]))).
Proof.
  intros content content'. split.
  - apply (proj1 (no_call_site_no_change "Sample.java"
                    (one_file "Sample.java" content) content eq_refl eq_refl)).
    right. reflexivity.
  - apply (proj2 (no_call_site_no_change "Sample.java"
                    (one_file "Sample.java" content') content' eq_refl eq_refl));
      reflexivity.
Defined.

(** ** Replacing twice

    When no end of [old] can begin [new] and [old] begins nowhere in
    [new], the text that [replace] returns has no occurrence of [old]
    left. *)

Section ReplaceTwice.
Variables old new : text.
Hypothesis old_nonempty : old <> [].
Hypothesis ends_clash_new : ends_clash old new = true.
Hypothesis clash_in_new : clash_everywhere old new = true.

Lemma end_clashes pfx v x :
  old = pfx ++ v -> v <> [] -> starts_with v (new ++ x) = false.
Proof.
  intros Hold Hv. apply clash_starts_with.
  unfold ends_clash in ends_clash_new. rewrite forallb_forall in ends_clash_new.
  specialize (ends_clash_new (length pfx)).
  rewrite Hold, drop_app_length in ends_clash_new. apply ends_clash_new.
  apply in_seq. rewrite length_app. destruct v; [done | simpl; lia].
Qed.

(** A beginning of [old] that was not completed by the text is not
    completed by the replaced text either. *)
Lemma replace_keeps_miss s : forall pfx v,
  old = pfx ++ v -> v <> [] ->
  starts_with old (pfx ++ s) = false ->
  starts_with old (pfx ++ replace_from old new s 0) = false.
Proof.
  induction s as [|c s IH]; intros pfx v Hold Hv Hmiss; [done|].
  cbn [replace_from]. destruct (starts_with old (c :: s)) eqn:Hhere.
  - rewrite Hold at 1. rewrite starts_with_app_cancel. by eapply end_clashes.
  - destruct v as [|c' v]; [done|].
    destruct (Ascii.eqb_spec c' c) as [->|Hne].
    + destruct v as [|c'' v].
      { rewrite Hold in Hmiss.
        change (pfx ++ c :: s) with (pfx ++ [c] ++ s) in Hmiss.
        rewrite app_assoc, starts_with_app in Hmiss. done. }
      change (pfx ++ c :: ?x) with (pfx ++ [c] ++ x). rewrite app_assoc.
      apply (IH (pfx ++ [c]) (c'' :: v)); [by rewrite <- app_assoc | done |].
      by rewrite <- app_assoc.
    + rewrite Hold at 1. rewrite starts_with_app_cancel. simpl.
      destruct (Ascii.eqb_spec c' c); done.
Qed.

Lemma replace_leaves_none s skip :
  contains old (replace_from old new s skip) = false.
Proof.
  revert skip. induction s as [|c s IH]; intros skip.
  - by apply contains_nil_false.
  - cbn [replace_from]. destruct skip as [|skip]; [|apply IH].
    destruct (starts_with old (c :: s)) eqn:Hhere.
    + by apply clash_everywhere_contains.
    + cbn [contains]. rewrite IH, orb_false_r.
      pose proof (replace_keeps_miss (c :: s) [] old eq_refl old_nonempty Hhere) as H.
      cbn [replace_from app] in H. by rewrite Hhere in H.
Qed.

Lemma replace_twice s :
  replace_from old new (replace_from old new s 0) 0 = replace_from old new s 0.
Proof. apply replace_from_absent, replace_leaves_none. Qed.
End ReplaceTwice.

Lemma migrate_floor_twice content :
  FixRemaining.migrate_floor (FixRemaining.migrate_floor content)
  = FixRemaining.migrate_floor content.
Proof.
  unfold FixRemaining.migrate_floor.
  rewrite !str_replace_nonempty by discriminate.
  apply replace_twice; [discriminate | reflexivity | reflexivity].
Qed.

(** ** No call head in the migrated text

    The blocks have no call head of their own, and none arises where a
    block meets a captured text or the text around it: the characters
    that separate them are not in the call head, or only at its end. *)

Section CleanFacts.
Local Abbreviation clean t := (contains call_head t = false).
Implicit Types (a b t w : text).

Lemma clean_bar c a b :
  free_of c call_head -> clean a -> clean b -> clean (a ++ c :: b).
Proof. apply contains_bar. Qed.

Lemma clean_cons c b : free_of c call_head -> clean b -> clean (c :: b).
Proof. intros Hc Hb. by apply (clean_bar c [] b). Qed.

Lemma clean_paren a b :
  clean (a ++ ["("%char]) -> clean b -> clean (a ++ "("%char :: b).
Proof. apply contains_bar_end. by_evaluation. Qed.

Lemma clean_tail a t : free_of "(" t -> clean a -> clean (a ++ t).
Proof. apply (contains_tail call_head (str "engine.setStream") "("). reflexivity. Qed.

Lemma clean_no_paren t : free_of "(" t -> clean t.
Proof. intros Ht. by apply (clean_tail [] t). Qed.

Lemma space_not_in_call_head c : is_space c = true -> free_of c call_head.
Proof.
  intros Hc. assert (Forall (fun x => is_space x = false) call_head) as Hsolid
    by by_evaluation.
  eapply Forall_impl; [exact Hsolid|]. intros x Hx. unfold not_chr.
  destruct (Ascii.eqb_spec x c) as [->|]; [congruence | done].
Qed.

Lemma clean_blank a w b :
  blank w -> w <> [] -> clean a -> clean b -> clean (a ++ w ++ b).
Proof.
  intros Hw. revert a. induction Hw as [|c w Hc Hw IH]; intros a Hne Ha Hb; [done|].
  apply clean_bar; [by apply space_not_in_call_head | done |].
  destruct w as [|c' w]; [done|]. by apply (IH []).
Qed.

Lemma clean_blank0 w b : blank w -> w <> [] -> clean b -> clean (w ++ b).
Proof. intros Hw Hne Hb. by apply (clean_blank [] w b). Qed.

Lemma group_clean m i :
  forallb (fun g => negb (contains call_head g)) (groups m) = true ->
  clean (group m i).
Proof.
  intros Hall. unfold group.
  destruct (nth_in_or_default (i - 1) (groups m) []) as [Hin | ->]; [|done].
  rewrite forallb_forall in Hall. apply Hall in Hin. by apply negb_true_iff.
Qed.

Lemma test_migration_block_clean a counter name value year_matcher b :
  clean a -> clean name -> clean value -> clean year_matcher -> clean b ->
  clean (a ++ FixTestMigration.replacement counter name value year_matcher ++ b).
Proof.
  intros Ha Hname Hvalue Hym Hb.
  assert (a ++ FixTestMigration.replacement counter name value year_matcher ++ b
          = (a ++ str "StreamUpdate") ++ " "%char ::
            (str "update" ++ fmt_int counter) ++ " "%char ::
            str "= new StreamUpdateBuilder(" ++ ")"%char ::
            (nl ++ str "        .setName") ++ "("%char :: name ++ ")"%char ::
            (nl ++ str "        .setValue") ++ "("%char :: value ++ ")"%char ::
            (nl ++ str "        .setYearMatcher") ++ "("%char :: year_matcher ++ ")"%char ::
            ((nl ++ str "        .inferSubtractRecycling()" ++ nl ++
              str "        .build();" ++ nl ++
              str "    engine.executeStreamUpdate(update") ++ fmt_int counter) ++
            ")"%char :: ";"%char :: b) as ->.
  { unfold FixTestMigration.replacement. rewrite <- !app_assoc. reflexivity. }
  apply clean_bar; [by_evaluation | apply clean_tail; [by_evaluation | done] |].
  apply clean_bar; [by_evaluation | |].
  { apply clean_no_paren, free_of_app; [by_evaluation | by apply fmt_int_free]. }
  apply clean_bar; [by_evaluation | reflexivity |].
  apply clean_paren; [reflexivity|]. apply clean_bar; [by_evaluation | done |].
  apply clean_paren; [reflexivity|]. apply clean_bar; [by_evaluation | done |].
  apply clean_paren; [reflexivity|]. apply clean_bar; [by_evaluation | done |].
  apply clean_bar; [by_evaluation | |].
  { apply clean_tail; [by apply fmt_int_free | reflexivity]. }
  apply clean_cons; [by_evaluation | done].
Qed.

Lemma remaining_block_clean a indent counter name value year_matcher b :
  blank indent -> indent <> [] ->
  clean a -> clean name -> clean value -> clean year_matcher -> clean b ->
  clean (a ++ FixRemaining.replacement indent counter name value year_matcher ++ b).
Proof.
  intros Hi Hi0 Ha Hname Hvalue Hym Hb.
  assert (a ++ FixRemaining.replacement indent counter name value year_matcher ++ b
          = a ++ indent ++
            str "StreamUpdate" ++ " "%char ::
            (str "update" ++ fmt_int counter) ++ " "%char ::
            str "= new StreamUpdateBuilder(" ++ ")"%char :: newline ::
            indent ++ str "    .setName" ++ "("%char :: dquote ::
              name ++ dquote :: ")"%char :: newline ::
            indent ++ str "    .setValue" ++ "("%char :: value ++ ")"%char :: newline ::
            indent ++ str "    .setYearMatcher" ++ "("%char ::
              year_matcher ++ ")"%char :: newline ::
            indent ++ str "    .inferSubtractRecycling(" ++ ")"%char :: newline ::
            indent ++ str "    .build(" ++ ")"%char :: ";"%char :: newline ::
            indent ++ (str "engine.executeStreamUpdate(update" ++ fmt_int counter) ++
            ")"%char :: ";"%char :: b) as ->.
  { unfold FixRemaining.replacement. rewrite <- !app_assoc. reflexivity. }
  apply clean_blank; [done | done | done |].
  apply clean_bar; [by_evaluation | reflexivity |].
  apply clean_bar; [by_evaluation | |].
  { apply clean_no_paren, free_of_app; [by_evaluation | by apply fmt_int_free]. }
  apply clean_bar; [by_evaluation | reflexivity |].
  apply clean_cons; [by_evaluation|]. apply clean_blank0; [done | done |].
  apply clean_paren; [reflexivity|]. apply clean_cons; [by_evaluation|].
  apply clean_bar; [by_evaluation | done |].
  apply clean_cons; [by_evaluation|]. apply clean_cons; [by_evaluation|].
  apply clean_blank0; [done | done |].
  apply clean_paren; [reflexivity|]. apply clean_bar; [by_evaluation | done |].
  apply clean_cons; [by_evaluation|]. apply clean_blank0; [done | done |].
  apply clean_paren; [reflexivity|]. apply clean_bar; [by_evaluation | done |].
  apply clean_cons; [by_evaluation|]. apply clean_blank0; [done | done |].
  apply clean_bar; [by_evaluation | reflexivity |].
  apply clean_cons; [by_evaluation|]. apply clean_blank0; [done | done |].
  apply clean_bar; [by_evaluation | reflexivity |].
  apply clean_cons; [by_evaluation|]. apply clean_cons; [by_evaluation|].
  apply clean_blank0; [done | done |].
  apply clean_bar; [by_evaluation | |].
  { apply clean_tail; [by apply fmt_int_free | reflexivity]. }
  apply clean_cons; [by_evaluation | done].
Qed.
End CleanFacts.

(** ** No call head after a substitution

    When the call head occurs only where a call site was matched, and in
    none of the captured texts, the substituted text has no call head. *)

Section RenderClean.
Context {St : Type}.
Variable repl : rmatch -> St -> text * St.
Variable p : regex.
Hypothesis block_clean : forall a t m st b,
  re_match p t = Some m ->
  contains call_head a = false ->
  forallb (fun g => negb (contains call_head g)) (groups m) = true ->
  contains call_head b = false ->
  contains call_head (a ++ fst (repl m st) ++ b) = false.

(** Every match of a scan was returned by [re_match]. *)
Lemma scan_hits s : forall skip,
  Forall (fun pc => match pc with
                    | Hit m => exists t, re_match p t = Some m
                    | Keep _ => True
                    end) (scan p s skip).
Proof.
  induction s as [|c s IH]; intros skip; cbn [scan].
  - destruct skip; [|constructor].
    destruct (re_match p []) eqn:E; repeat constructor. eauto.
  - destruct skip as [|k]; [|apply IH].
    destruct (re_match p (c :: s)) as [m|] eqn:E.
    + destruct (mlen m); repeat (constructor; eauto).
    + constructor; auto.
Qed.

Lemma render_clean ps : forall a st,
  Forall (fun pc => match pc with
                    | Hit m => exists t, re_match p t = Some m
                    | Keep _ => True
                    end) ps ->
  confined a ps = true ->
  contains call_head (a ++ fst (render repl ps st)) = false.
Proof.
  induction ps as [|[c|m] ps IH]; intros a st Hps Hc; cbn [render confined] in *.
  - rewrite app_nil_r. by apply negb_true_iff.
  - apply Forall_cons in Hps as [_ Hps]. specialize (IH (a ++ [c]) st Hps Hc).
    destruct (render repl ps st) as [out st']. simpl in *.
    by rewrite <- app_assoc in IH.
  - apply Forall_cons in Hps as [[t Ht] Hps].
    apply andb_true_iff in Hc as [[Ha Hg]%andb_true_iff Hc].
    apply negb_true_iff in Ha.
    pose proof (block_clean a t m st) as Hblock.
    destruct (repl m st) as [r st1].
    specialize (IH [] st1 Hps Hc). destruct (render repl ps st1) as [out st2].
    simpl in *. by apply Hblock.
Qed.

Lemma re_sub_clean s st :
  confined [] (scan p s 0) = true ->
  contains call_head (fst (re_sub p repl s st)) = false.
Proof. intros H. apply (render_clean _ [] st); [apply scan_hits | done]. Qed.
End RenderClean.

Lemma test_migration_sub_clean s counter :
  confined [] (scan FixTestMigration.setstream_pattern s 0) = true ->
  contains call_head
    (fst (re_sub FixTestMigration.setstream_pattern
            FixTestMigration.replace_setstream s counter)) = false.
Proof.
  apply re_sub_clean. intros a t m st b _ Ha Hg Hb.
  unfold FixTestMigration.replace_setstream. cbn [fst].
  apply test_migration_block_clean; auto using group_clean.
Qed.

Lemma remaining_sub_clean s counter :
  confined [] (scan FixRemaining.pattern s 0) = true ->
  contains call_head
    (fst (re_sub FixRemaining.pattern FixRemaining.replace_setstream s counter)) = false.
Proof.
  apply re_sub_clean. intros a t m st b Hm Ha Hg Hb.
  apply re_match_sound in Hm as (w & s' & _ & Hw & _).
  apply CallSiteShape.remaining in Hw
    as (indent & name & w1 & value & w2 & ym & _ & Hgs & _ & _ & [Hi Hi0] & _).
  unfold FixRemaining.replace_setstream. cbn [fst].
  apply remaining_block_clean; auto using group_clean.
  - unfold group. by rewrite Hgs.
  - unfold group. by rewrite Hgs.
Qed.

(** Every match of the three call patterns holds the call head. *)
Lemma no_call_head_no_call_site t :
  contains call_head t = false ->
  re_search FixTestMigration.setstream_pattern t = None /\
  re_search FixRemaining.pattern t = None /\
  re_search FixRemaining.multiline_pattern t = None.
Proof.
  intros Ht. apply not_true_iff_false in Ht. split_and!.
  - destruct (re_search FixTestMigration.setstream_pattern t) as [m|] eqn:E; [|done].
    apply re_search_Some in E as (pre & s1 & -> & Hm & _).
    apply re_match_sound in Hm as (w & s' & -> & Hw & _).
    apply CallSiteShape.test_migration in Hw
      as (name & w1 & value & w2 & ym & -> & _).
    destruct Ht. apply contains_spec. exists pre. eexists.
    rewrite <- !app_assoc. reflexivity.
  - destruct (re_search FixRemaining.pattern t) as [m|] eqn:E; [|done].
    apply re_search_Some in E as (pre & s1 & -> & Hm & _).
    apply re_match_sound in Hm as (w & s' & -> & Hw & _).
    apply CallSiteShape.remaining in Hw
      as (indent & name & w1 & value & w2 & ym & -> & _).
    destruct Ht. apply contains_spec. exists (pre ++ indent). eexists.
    rewrite <- !app_assoc. reflexivity.
  - destruct (re_search FixRemaining.multiline_pattern t) as [m|] eqn:E; [|done].
    apply re_search_Some in E as (pre & s1 & -> & Hm & _).
    apply re_match_sound in Hm as (w & s' & -> & Hw & _).
    apply CallSiteShape.remaining_multiline in Hw
      as (indent & name & w1 & value & w2 & w3 & ym & -> & _).
    destruct Ht. apply contains_spec. exists (pre ++ indent). eexists.
    rewrite <- !app_assoc. reflexivity.
Qed.

Lemma test_migration_migrate_clean content :
  confined [] (scan FixTestMigration.setstream_pattern
                 (FixTestMigration.add_imports content) 0) = true ->
  contains call_head (FixTestMigration.migrate content) = false.
Proof. apply test_migration_sub_clean. Qed.

(** The second pass finds nothing in what the first pass returns. *)
Lemma remaining_migrate_clean content :
  confined [] (scan FixRemaining.pattern content 0) = true ->
  contains call_head (FixRemaining.migrate content) = false.
Proof.
  intros H. unfold FixRemaining.migrate, FixRemaining.migrate_counting.
  pose proof (remaining_sub_clean content 10 H) as Hc.
  destruct (re_sub FixRemaining.pattern FixRemaining.replace_setstream content 10)
    as [once counter].
  simpl in Hc. destruct (no_call_head_no_call_site once Hc) as (_ & _ & H2).
  by rewrite re_sub_None.
Qed.

(** The call head must not stand outside the matches either: a call that
    the pattern does not match, because a closing parenthesis precedes
    its second comma, is matched once a block stands in its place. *)
Lemma call_head_outside_a_match_is_matched_later :
  let content := str "engine.setStream(p, engine.setStream(a, b)x, c); foo, bar);" in
  let once := FixTestMigration.migrate content in
  map (fun call => groups (fst call))
    (calls FixTestMigration.replace_setstream
       (scan FixTestMigration.setstream_pattern content 0) 1)
  = [[str "a"; str "b)x"; str "c"]] /\
  re_search FixTestMigration.setstream_pattern once <> None /\
  FixTestMigration.migrate once <> once.
Proof.
  intros content once. split_and!.
  - reflexivity.
  - vm_compute. discriminate.
  - intros H%(f_equal length). vm_compute in H. discriminate.
Qed.


